(** * jedi.evaluate.representation: a shallow embedding

    The module wraps parser nodes into evaluation objects ([Class],
    [Instance], [InstanceElement], [Function], [FunctionExecution],
    [ModuleWrapper]) and implements the "magic methods" [py__bases__],
    [py__mro__], [py__call__] on them.

    Python objects are values of the type [obj].  Parser nodes are addressed
    by an index; wrappers built through [CachedMetaClass] are a function of
    their constructor arguments (module [WrapperCache] below models the cache
    that makes this so), hence they are represented by the constructor
    applied to its arguments.

    The parser tree ([jedi.parser.representation]), the compiled-object
    model and the expression evaluator are collaborators of the module: they
    are the fields of the records [tree], [compiled] and [evaluator], over
    which every definition is parametrised.

    A computation runs in the state of one analysis session: the diagnostics
    written, the tables of [memoize_default] and the stack of the recursion
    guard.  [py__bases__], [py__mro__], [get_self_attributes] and
    [get_return_types] go through their table of [memoize_default]: a call
    that finds an entry answers with it and does nothing else, and while a
    call is in progress the entry is the default.  For the other memoized
    methods of the module the table only saves the work of a second call. *)

From stdpp Require Import base option list gmap strings.

Open Scope string_scope.
Open Scope list_scope.
Open Scope nat_scope.

(** ** Objects *)

Definition node := nat.

(** [pr.Name]: the dotted path [names] and the source text [_get_code]. *)
Record name := Name { names : list string; _get_code : string }.

#[local] Set Warnings "-register-all".

Inductive obj : Type :=
  | PrClass (n : node)                     (* pr.Class *)
  | PrFunction (n : node)                  (* pr.Function *)
  | PrModule (n : node)                    (* pr.Module *)
  | PrOperator (n : node)                  (* pr.Operator *)
  | Token (n : node)                       (* tokenize.Token *)
  | PrName (nm : name)                     (* pr.Name *)
  | PrSimple (n : node)                    (* any other parser node *)
  | CompiledObject (k : nat)               (* compiled.CompiledObject *)
  | Generator (func : obj) (var_args : list obj)   (* iterable.Generator *)
  | Class (base : node)
  | Function (base_func : obj) (is_decorated : bool)
  | ModuleWrapper (module : node)
  | Instance (base : obj) (var_args : list obj)
  | InstanceElement (instance var : obj) (is_class_var : bool)
  | FunctionExecution (base : obj) (var_args : list obj).

(** Objects are keys of the memoization tables: they are countable, through
    an encoding into trees. *)
Fixpoint obj_encode (o : obj) : gen_tree (nat + string) :=
  match o with
  | PrClass n => GenNode 0 [GenLeaf (inl n)]
  | PrFunction n => GenNode 1 [GenLeaf (inl n)]
  | PrModule n => GenNode 2 [GenLeaf (inl n)]
  | PrOperator n => GenNode 3 [GenLeaf (inl n)]
  | Token n => GenNode 4 [GenLeaf (inl n)]
  | PrName nm =>
      GenNode 5 (GenLeaf (inr (_get_code nm)) :: map (λ x, GenLeaf (inr x)) (names nm))
  | PrSimple n => GenNode 6 [GenLeaf (inl n)]
  | CompiledObject k => GenNode 7 [GenLeaf (inl k)]
  | Generator f a => GenNode 8 (obj_encode f :: map obj_encode a)
  | Class n => GenNode 9 [GenLeaf (inl n)]
  | Function f b => GenNode 10 [obj_encode f; GenLeaf (inl (if b then 1 else 0))]
  | ModuleWrapper n => GenNode 11 [GenLeaf (inl n)]
  | Instance b a => GenNode 12 (obj_encode b :: map obj_encode a)
  | InstanceElement i v b =>
      GenNode 13 [obj_encode i; obj_encode v; GenLeaf (inl (if b then 1 else 0))]
  | FunctionExecution b a => GenNode 14 (obj_encode b :: map obj_encode a)
  end.

Definition leaf_string (t : gen_tree (nat + string)) : string :=
  match t with
  | GenLeaf (inr x) => x
  | _ => ""
  end.

Fixpoint obj_decode (t : gen_tree (nat + string)) : obj :=
  match t with
  | GenNode 0 [GenLeaf (inl n)] => PrClass n
  | GenNode 1 [GenLeaf (inl n)] => PrFunction n
  | GenNode 2 [GenLeaf (inl n)] => PrModule n
  | GenNode 3 [GenLeaf (inl n)] => PrOperator n
  | GenNode 4 [GenLeaf (inl n)] => Token n
  | GenNode 5 (GenLeaf (inr c) :: l) => PrName (Name (map leaf_string l) c)
  | GenNode 6 [GenLeaf (inl n)] => PrSimple n
  | GenNode 7 [GenLeaf (inl n)] => CompiledObject n
  | GenNode 8 (f :: a) => Generator (obj_decode f) (map obj_decode a)
  | GenNode 9 [GenLeaf (inl n)] => Class n
  | GenNode 10 [f; GenLeaf (inl b)] => Function (obj_decode f) (bool_decide (b = 1))
  | GenNode 11 [GenLeaf (inl n)] => ModuleWrapper n
  | GenNode 12 (b :: a) => Instance (obj_decode b) (map obj_decode a)
  | GenNode 13 [i; v; GenLeaf (inl b)] =>
      InstanceElement (obj_decode i) (obj_decode v) (bool_decide (b = 1))
  | GenNode 14 (b :: a) => FunctionExecution (obj_decode b) (map obj_decode a)
  | _ => PrSimple 0
  end.

Lemma obj_decode_encode : ∀ o, obj_decode (obj_encode o) = o.
Proof.
  fix IH 1. intros [n|n|n|n|n|[ns c]|n|k|f a|n|f b|n|b a|i v b|b a]; simpl; try done.
  - f_equal. f_equal. induction ns as [|x ns IHns]; simpl; [done|]. by rewrite IHns.
  - rewrite IH. f_equal. rewrite map_map.
    induction a as [|x a IHa]; simpl; [done|]. by rewrite IH, IHa.
  - rewrite IH. by destruct b.
  - rewrite IH. f_equal. rewrite map_map.
    induction a as [|x a IHa]; simpl; [done|]. by rewrite IH, IHa.
  - rewrite !IH. by destruct b.
  - rewrite IH. f_equal. rewrite map_map.
    induction a as [|x a IHa]; simpl; [done|]. by rewrite IH, IHa.
Qed.

Global Instance obj_eq_dec : EqDecision obj.
Proof.
  intros x y. destruct (decide (obj_encode x = obj_encode y)) as [H|H].
  - left. rewrite <- (obj_decode_encode x), <- (obj_decode_encode y). by rewrite H.
  - right. by intros ->.
Defined.

Global Instance obj_countable : Countable obj :=
  inj_countable' obj_encode obj_decode obj_decode_encode.

(** [compiled.object_obj], the root of every class hierarchy. *)
Definition object_obj : obj := CompiledObject 0.

(** ** Collaborators *)

(** What [flow_analysis.break_check] answers. *)
Inductive flow := REACHABLE | UNREACHABLE | UNSURE.

Global Instance flow_eq_dec : EqDecision flow.
Proof. solve_decision. Defined.

(** An element of [pr.Function.returns]: [None], a [pr.KeywordStatement]
    (whose [stmt] is [None] for a bare [return]) or, for a lambda, the
    statement itself.  [parent] is the enclosing flow node. *)
Inductive return_point :=
  | NoReturn
  | KeywordStatement (stmt : option node) (parent : node)
  | Statement (stmt : node) (parent : node).

(** The attributes of parser objects that the module reads. *)
Record tree := {
  supers : node → list node;             (* pr.Class.supers, statements *)
  subscopes : node → list obj;           (* pr.Scope.subscopes *)
  name_code : obj → string;              (* sub.name.get_code() *)
  params : node → list string;           (* str(p.get_name()) for p in func.params *)
  decorators : node → list node;         (* pr.Function.decorators, statements *)
  get_defined_names : obj → list name;   (* pr.Scope.get_defined_names(scope) *)
  returns : node → list return_point;    (* pr.Function.returns *)
  listeners : node → list nat;           (* pr.Function.listeners *)
  is_generator : node → bool;            (* pr.Function.is_generator *)
  expression_list : obj → list obj;      (* var.expression_list() *)
  node_truth : node → bool;              (* bool(node), for nodes with __len__ *)
}.

(** [jedi.evaluate.compiled]. *)
Record compiled := {
  compiled_mro : nat → list obj;         (* CompiledObject.py__mro__ *)
  compiled_bases : nat → list obj;       (* CompiledObject.py__bases__ *)
  compiled_subscopes : nat → list obj;   (* CompiledObject.subscopes *)
  compiled_get_subscope_by_name : nat → string → option obj;
    (* CompiledObject.get_subscope_by_name, None when it raises KeyError *)
}.

(** The evaluator and the helpers next to it.  Within one session each of
    them answers a given question always the same way. *)
Record evaluator := {
  eval_statement : node → list obj;
  execute : obj → list obj → list obj;
  break_check : obj → node → flow;              (* flow_analysis.break_check *)
  find_return_types : obj → list obj;           (* docstrings.find_return_types *)
  get_params : obj → list obj → list name;      (* param.get_params *)
}.

(** ** Session state and effects *)

(** What the module sends to its sinks: [debug.warning], [debug.dbg] and
    [listener.execute]. *)
Inductive event :=
  | Warning (msg : string)
  | Dbg (msg : string)
  | ListenerExecute (listener : nat) (params : list name).

(** A call shape: the function and the arguments of an execution. *)
Definition call_key : Type := obj * list obj.

(** The mutable state of one analysis session: [evaluator.memoize_cache],
    indexed by the memoized method and the object it is called on, the stack
    of the recursion guard, and the diagnostics written so far. *)
Record session := Session {
  events : list event;                             (* oldest first *)
  memoize_cache : gmap (string * obj) (list obj);
  execution_stack : list call_key;                 (* innermost first *)
}.

Definition fresh_session : session := Session [] ∅ [].

Inductive exn := KeyError | AttributeError | IndexError.

Global Instance exn_eq_dec : EqDecision exn.
Proof. solve_decision. Defined.

(** A computation ends with a value, with a Python exception, or runs out
    of the fuel that bounds the depth of recursion of the embedding. *)
Inductive outcome (A : Type) :=
  | Ret (a : A) (s : session)
  | Raise (e : exn) (s : session)
  | OutOfFuel.
Arguments Ret {A} a s.
Arguments Raise {A} e s.
Arguments OutOfFuel {A}.

(** The value of a computation that returned. *)
Definition returned {A} (r : outcome A) : option A :=
  match r with
  | Ret a _ => Some a
  | _ => None
  end.

Definition M (A : Type) : Type := session → outcome A.

Global Instance M_ret : MRet M := λ A a s, Ret a s.
Global Instance M_bind : MBind M := λ A B f m s,
  match m s with
  | Ret a s' => f a s'
  | Raise e s' => Raise e s'
  | OutOfFuel => OutOfFuel
  end.

Definition raise {A} (e : exn) : M A := λ s, Raise e s.
Definition out_of_fuel {A} : M A := λ _, OutOfFuel.

(** [try: body except e: handler] *)
Definition try_except {A} (body : M A) (e : exn) (handler : M A) : M A := λ s,
  match body s with
  | Raise e' s' => if decide (e' = e) then handler s' else Raise e' s'
  | r => r
  end.

Definition emit (ev : event) : M unit := λ s,
  Ret () (Session (events s ++ [ev]) (memoize_cache s) (execution_stack s)).

Definition warning (msg : string) : M unit := emit (Warning msg).
Definition dbg (msg : string) : M unit := emit (Dbg msg).

(** [for x in l: acc = body(acc, x)] *)
Fixpoint for_each {A B} (l : list A) (acc : B) (body : B → A → M B) : M B :=
  match l with
  | [] => mret acc
  | x :: l' => acc' ← body acc x; for_each l' acc' body
  end.

Definition set_memo (key : string * obj) (rv : list obj) (s : session) : session :=
  Session (events s) (<[key := rv]> (memoize_cache s)) (execution_stack s).

(** Modelled from the spec: [memoize_default] of [jedi.evaluate.cache],
    which is not part of this module.  A key found in the table answers
    with the stored value; otherwise the default, when there is one, is
    stored as a placeholder while the function runs, and the result replaces
    it. *)
Definition memoize_default (method : string) (default : option (list obj))
    (function : obj → M (list obj)) (self : obj) : M (list obj) := λ s,
  match memoize_cache s !! (method, self) with
  | Some rv => Ret rv s
  | None =>
      let s1 := match default with
                | Some d => set_memo (method, self) d s
                | None => s
                end in
      match function self s1 with
      | Ret rv s2 => Ret rv (set_memo (method, self) rv s2)
      | r => r
      end
  end.

(** Modelled from the spec: [execution_recursion_decorator] of
    [jedi.evaluate.recursion], which is not part of this module.  The key of
    the execution is looked up in the stack of executions in progress; when
    it is there the answer is the empty list and the function does not run,
    otherwise the key is pushed around the run of the function. *)
Definition execution_recursion_decorator (func : obj → M (list obj))
    (execution : obj) : M (list obj) := λ s,
  match execution with
  | FunctionExecution base var_args =>
      if decide ((base, var_args) ∈ execution_stack s) then Ret [] s
      else
        match func execution
                (Session (events s) (memoize_cache s) ((base, var_args) :: execution_stack s)) with
        | Ret result s' =>
            Ret result (Session (events s') (memoize_cache s') (tail (execution_stack s')))
        | r => r
        end
  | _ => Raise AttributeError s
  end.

(** The statements that the evaluator of the recursion examples knows: a
    literal of known types, or a call of a function on an argument array. *)
Inductive expr :=
  | Literal (types : list obj)
  | Call (callee : obj) (arguments : list obj).

Section Representation.

Context (T : tree) (C : compiled) (E : evaluator).

(** ** Attribute delegation *)

(** [Function.__getattr__] and [InstanceElement.__getattr__] forward the
    attributes they do not define to the wrapped object: an attribute of a
    parser function is found through any number of such wrappers. *)
Fixpoint raw_function (o : obj) : option node :=
  match o with
  | PrFunction n => Some n
  | Function base_func _ => raw_function base_func
  | InstanceElement _ var _ => raw_function var
  | _ => None
  end.

Definition getattr_function (func : obj) : M node :=
  match raw_function func with
  | Some fn => mret fn
  | None => raise AttributeError
  end.

(** [bool(o)]: objects are true unless their class defines a length. *)
Definition py_bool (o : obj) : bool :=
  match o with
  | PrName nm => bool_decide (names nm ≠ [])
  | PrSimple n => node_truth T n
  | _ => true
  end.

(** ** get_instance_el and InstanceElement *)

Definition get_instance_el (instance var : obj) (is_class_var : bool) : obj :=
  match var with
  | Instance _ _ | CompiledObject _ | PrOperator _ | Token _
  | PrModule _ | ModuleWrapper _ | FunctionExecution _ _ => var
  | PrFunction _ => InstanceElement instance (Function var false) is_class_var
  | PrClass n => InstanceElement instance (Class n) is_class_var
  | _ => InstanceElement instance var is_class_var
  end.

(** [InstanceElement.expression_list] *)
Definition InstanceElement_expression_list (self : obj) : M (list obj) :=
  match self with
  | InstanceElement instance var is_class_var =>
      mret (map (λ command, get_instance_el instance command is_class_var)
                (expression_list T var))
  | _ => raise AttributeError
  end.

(** ** Class *)

Definition is_class_or_compiled (cls : obj) : bool :=
  match cls with
  | Class _ | CompiledObject _ => true
  | _ => false
  end.

(** The inner loop of [py__bases__]: [for cls in eval_statement(s)]. *)
Definition keep_classes (found : list obj) (supers : list obj) : M (list obj) :=
  for_each found supers (λ supers cls,
    if is_class_or_compiled cls then mret (supers ++ [cls])
    else _ ← warning "Received non class as a super class."; mret supers).

(** [Class.py__bases__], for the wrapper [Class base], under
    [memoize_default(default=())]. *)
Definition py__bases__ (base : node) : M (list obj) :=
  memoize_default "py__bases__" (Some []) (λ _,
    supers ← for_each (supers T base) []
               (λ supers s, keep_classes (eval_statement E s) supers);
    if decide (supers = []) then mret (supers ++ [object_obj]) else mret supers)
    (Class base).

(** [add] of [py__mro__]: [if cls not in mro: mro.append(cls)]. *)
Definition add (mro : list obj) (cls : obj) : list obj :=
  if decide (cls ∈ mro) then mro else mro ++ [cls].

(** The body of the loop over the bases in [py__mro__]; [rec] is the method
    [py__mro__] of the base. *)
Definition mro_step (rec : obj → M (list obj)) (mro : list obj) (cls : obj) : M (list obj) :=
  let mro := add mro cls in
  mro_new ← rec cls;
  mret (foldl add mro mro_new).

(** [self.py__mro__(evaluator)]: [Class.py__mro__] under
    [memoize_default(default=())] when [self] is a [Class], the method of
    the compiled model when it is a [CompiledObject]. *)
Fixpoint py__mro__ (fuel : nat) (self : obj) : M (list obj) :=
  match self with
  | Class base =>
      match fuel with
      | 0 => out_of_fuel
      | S fuel' =>
          memoize_default "py__mro__" (Some []) (λ self,
            bases ← py__bases__ base;
            for_each bases [self] (mro_step (py__mro__ fuel'))) self
      end
  | CompiledObject k => mret (compiled_mro C k)
  | _ => raise AttributeError
  end.

(** [s.subscopes]: [Class.__getattr__] forwards it to the parser class. *)
Definition getattr_subscopes (s : obj) : M (list obj) :=
  match s with
  | Class base => mret (subscopes T base)
  | CompiledObject k => mret (compiled_subscopes C k)
  | _ => raise AttributeError
  end.

(** The loops of [Class.get_subscope_by_name] over [scopes]. *)
Fixpoint find_subscope (scopes : list obj) (name : string) : M obj :=
  match scopes with
  | [] => raise KeyError
  | s :: scopes' =>
      subs ← getattr_subscopes s;
      match List.find (λ sub, bool_decide (name_code T sub = name)) (reverse subs) with
      | Some sub => mret sub
      | None => find_subscope scopes' name
      end
  end.

(** [Class.get_subscope_by_name], for the wrapper [Class base]. *)
Definition Class_get_subscope_by_name (base : node) (name : string) : M obj :=
  bases ← py__bases__ base;
  find_subscope ([Class base] ++ bases) name.

(** [Class.py__call__] *)
Definition Class_py__call__ (self : obj) (params : list obj) : M (list obj) :=
  mret [Instance self params].

(** ** Instance *)

(** [base.get_subscope_by_name(name)]: the method of [Class], or the one of
    the compiled model. *)
Definition call_get_subscope_by_name (base : obj) (name : string) : M obj :=
  match base with
  | Class b => Class_get_subscope_by_name b name
  | CompiledObject k =>
      match compiled_get_subscope_by_name C k name with
      | Some sub => mret sub
      | None => raise KeyError
      end
  | _ => raise AttributeError
  end.

(** [base.py__bases__(evaluator)] *)
Definition call_py__bases__ (base : obj) : M (list obj) :=
  match base with
  | Class b => py__bases__ b
  | CompiledObject k => mret (compiled_bases C k)
  | _ => raise AttributeError
  end.

(** [Instance.get_subscope_by_name] *)
Definition Instance_get_subscope_by_name (self : obj) (name : string) : M obj :=
  match self with
  | Instance base _ =>
      sub ← call_get_subscope_by_name base name;
      mret (get_instance_el self sub true)
  | _ => raise AttributeError
  end.

(** The property [Instance.py__call__]: reading it gives the function
    [actual], or raises [AttributeError]. *)
Definition Instance_py__call__ (self : obj) : M (list obj → list obj) :=
  method ← try_except (Instance_get_subscope_by_name self "__call__")
             KeyError (raise AttributeError);
  mret (λ params, execute E method params).

(** [Instance._get_func_self_name] *)
Definition _get_func_self_name (func : obj) : M (option string) :=
  fn ← getattr_function func;
  mret (head (params T fn)).

(** [Instance._get_method_execution] *)
Definition _get_method_execution (self : obj) (func : obj) : M obj :=
  match self with
  | Instance _ var_args =>
      mret (FunctionExecution (get_instance_el self func true) var_args)
  | _ => raise AttributeError
  end.

(** [sub.get_defined_names()]: [pr.Scope.get_defined_names] for a parser
    function, [FunctionExecution.get_defined_names] for an execution. *)
Definition call_get_defined_names (sub : obj) : M (list name) :=
  match sub with
  | PrFunction _ => mret (get_defined_names T sub)
  | FunctionExecution base var_args =>
      mret (get_params E base var_args ++ get_defined_names T sub)
  | _ => raise AttributeError
  end.

(** [add_self_dot_name] of [get_self_attributes] *)
Definition add_self_dot_name (self : obj) (names_ : list obj) (nm : name) : M (list obj) :=
  let n_names := tail (names nm) in
  match last n_names with
  | None => raise IndexError
  | Some code => mret (names_ ++ [get_instance_el self (PrName (Name n_names code)) false])
  end.

(** [for n in sub.get_defined_names()] of [get_self_attributes] *)
Definition scan_defined_names (self : obj) (self_name : string)
    (defined : list name) (names_ : list obj) : M (list obj) :=
  for_each defined names_ (λ names_ n,
    match names n with
    | [] => raise IndexError
    | first :: _ =>
        if decide (first = self_name ∧ length (names n) = 2)
        then add_self_dot_name self names_ n
        else mret names_
    end).

(** The body of [for sub in self.base.subscopes] of [get_self_attributes]. *)
Definition scan_subscope (self : obj) (names_ : list obj) (sub : obj) : M (list obj) :=
  match sub with
  | PrClass _ => mret names_
  | _ =>
      self_name ← _get_func_self_name sub;
      match self_name with
      | None | Some "" => mret names_
      | Some self_name =>
          sub ← (if decide (name_code T sub = "__init__") then
                   fn ← getattr_function sub;
                   if decide (decorators T fn = []) then _get_method_execution self sub
                   else mret sub
                 else mret sub);
          defined ← call_get_defined_names sub;
          scan_defined_names self self_name defined names_
      end
  end.

(** [for s in self.base.py__bases__(...)] of [get_self_attributes]; [rec]
    is the method [get_self_attributes] of the instances of the base. *)
Definition inherited_attributes (rec : obj → M (list obj))
    (bases : list obj) (names_ : list obj) : M (list obj) :=
  for_each bases names_ (λ names_ s,
    match s with
    | CompiledObject _ => mret names_
    | _ =>
        for_each (execute E s []) names_ (λ names_ inst,
          more ← rec inst;
          mret (names_ ++ more))
    end).

(** [inst.get_self_attributes()]: [Instance.get_self_attributes] under
    [memoize_default([])]. *)
Fixpoint get_self_attributes (fuel : nat) (self : obj) : M (list obj) :=
  match self with
  | Instance base _ =>
      match fuel with
      | 0 => out_of_fuel
      | S fuel' =>
          memoize_default "get_self_attributes" (Some []) (λ self,
            subs ← getattr_subscopes base;
            names_ ← for_each subs [] (scan_subscope self);
            bases ← call_py__bases__ base;
            inherited_attributes (get_self_attributes fuel') bases names_) self
      end
  | _ => raise AttributeError
  end.

(** ** Function *)

(** [l.pop()]: the last element and the list without it. *)
Definition pop {A} (l : list A) : option (A * list A) :=
  match reverse l with
  | [] => None
  | x :: rest => Some (x, reverse rest)
  end.

(** The loop of [_decorated_func] over the decorators, innermost first;
    [None] is the [return None] of a failed step. *)
Fixpoint apply_decorators (decs : list node) (f : obj) : M (option obj) :=
  match decs with
  | [] => mret (Some f)
  | dec :: decs' =>
      _ ← dbg "decorator: %s %s";
      let dec_results := eval_statement E dec in
      match pop dec_results with
      | None =>
          _ ← warning "decorator not found: %s on %s";
          mret None
      | Some (decorator, dec_results) =>
          _ ← (if decide (dec_results = []) then mret ()
               else warning "multiple decorators found %s %s");
          let old_func := Function f true in
          let wrappers := execute E decorator [old_func] in
          match wrappers with
          | [] =>
              _ ← warning "no wrappers found %s";
              mret None
          | f :: others =>
              _ ← (if decide (others = []) then mret ()
                   else warning "multiple wrappers found %s %s");
              _ ← dbg "decorator end %s";
              apply_decorators decs' f
          end
      end
  end.

(** [Function._decorated_func].  Its [memoize_default] decorator stores the
    result of the first call. *)
Definition _decorated_func (self : obj) : M (option obj) :=
  match self with
  | Function base_func is_decorated =>
      f ← (if is_decorated then mret (Some base_func)
           else
             fn ← getattr_function base_func;
             apply_decorators (reverse (decorators T fn)) base_func);
      match f with
      | Some (PrFunction n) => mret (Some (Function (PrFunction n) true))
      | _ => mret f
      end
  | _ => raise AttributeError
  end.

(** [Function.get_decorated_func]: [self._decorated_func() or Function(...)] *)
Definition get_decorated_func (self : obj) : M obj :=
  match self with
  | Function base_func _ =>
      f ← _decorated_func self;
      match f with
      | Some f => if py_bool f then mret f else mret (Function base_func true)
      | None => mret (Function base_func true)
      end
  | _ => raise AttributeError
  end.

(** ** FunctionExecution *)

Definition return_stmt (r : return_point) : option node :=
  match r with
  | NoReturn => None
  | KeywordStatement stmt _ => stmt
  | Statement stmt _ => Some stmt
  end.

Definition return_parent (r : return_point) : node :=
  match r with
  | NoReturn => 0
  | KeywordStatement _ parent | Statement _ parent => parent
  end.

(** [for r in self.returns] of [get_return_types]; [eval_stmt] is
    [self._evaluator.eval_statement]. *)
Fixpoint returns_loop (eval_stmt : node → M (list obj)) (self : obj)
    (rs : list return_point) (types : list obj) : M (list obj) :=
  match rs with
  | [] => mret types
  | r :: rs' =>
      match return_stmt r with
      | None => returns_loop eval_stmt self rs' types
      | Some stmt =>
          let check := break_check E self (return_parent r) in
          types ← (if decide (check = UNREACHABLE) then mret types
                   else found ← eval_stmt stmt; mret (types ++ found));
          if decide (check = REACHABLE) then mret types
          else returns_loop eval_stmt self rs' types
      end
  end.

(** The function that the decorators of [get_return_types] wrap.  The
    returns of an execution are copies of those of its function, node for
    node. *)
Definition get_return_types_body (eval_stmt : node → M (list obj)) (self : obj) : M (list obj) :=
  match self with
  | FunctionExecution func var_args =>
      fn ← getattr_function func;
      if decide (listeners T fn ≠ []) then
        _ ← for_each (listeners T fn) ()
              (λ _ listener, emit (ListenerExecute listener (get_params E func var_args)));
        mret []
      else
        returns_loop eval_stmt self (returns T fn) (find_return_types E func)
  | _ => raise AttributeError
  end.

(** [get_return_types] below its outer decorator: the method under
    [execution_recursion_decorator]. *)
Definition get_return_types_guarded (eval_stmt : node → M (list obj)) (self : obj)
    : M (list obj) :=
  execution_recursion_decorator (get_return_types_body eval_stmt) self.

(** [FunctionExecution.get_return_types], called on the execution object
    [self]: the guarded method under [memoize_default(default=())], whose
    table is keyed by the object. *)
Definition get_return_types (eval_stmt : node → M (list obj)) (self : obj) : M (list obj) :=
  memoize_default "get_return_types" (Some []) (get_return_types_guarded eval_stmt) self.

(** [Function.py__call__].  [FunctionExecution(evaluator, self, params)] is
    a new object at every call ([FunctionExecution] has no caching
    metaclass): no key of the table of [get_return_types] is this object, so
    [memoize_default] runs the guarded method, and the entry that it stores
    belongs to an object that nothing else holds.  What answers a re-entrant
    call on this path is the guard alone. *)
Definition Function_py__call__ (eval_stmt : node → M (list obj))
    (self : obj) (params : list obj) : M (list obj) :=
  fn ← getattr_function self;
  if is_generator T fn then mret [Generator self params]
  else get_return_types_guarded eval_stmt (FunctionExecution self params).

(** The evaluator as a collaborator that does not come back into the
    module. *)
Definition eval_statement_pure (stmt : node) : M (list obj) :=
  mret (eval_statement E stmt).

(** Modelled from the spec: the expression evaluator on the statements that
    bring the evaluation back into [get_return_types], which is not part of
    this module.  A statement is a literal of known types or a call of a
    function on an argument array; a call goes to the [py__call__] of the
    callee. *)
Fixpoint eval_statement_rec (program : node → expr) (fuel : nat) (stmt : node) : M (list obj) :=
  match fuel with
  | 0 => out_of_fuel
  | S fuel' =>
      match program stmt with
      | Literal types => mret types
      | Call callee arguments =>
          Function_py__call__ (eval_statement_rec program fuel') callee arguments
      end
  end.

End Representation.

(** ** The wrapper factory and the cache of CachedMetaClass *)

Module WrapperCache.

Definition addr := nat.

(** A reference to a Python object: an object that the parser or the
    compiled model owns, or a wrapper living at an address of the store. *)
Inductive ref :=
  | Raw (element : obj)
  | Wrapped (a : addr).

(** [objects] holds, at each address, the class and constructor arguments
    of the wrapper built there; [cache] is the table of
    [CachedMetaClass.__call__], from a constructor call to the object that
    the call built. *)
Record store := Store {
  objects : gmap addr obj;
  cache : gmap obj addr;
}.

Definition empty_store : store := Store ∅ ∅.

(** Modelled from the spec: [CachedMetaClass] of [jedi.evaluate.cache],
    which is not part of this module.  Calling a class whose metaclass it
    is goes through the cache of the session: the same class called on the
    same arguments gives the object of the first call, and a call not seen
    before builds a new object. *)
Definition construct (call : obj) (st : store) : ref * store :=
  match cache st !! call with
  | Some a => (Wrapped a, st)
  | None =>
      let a := fresh (dom (objects st)) in
      (Wrapped a, Store (<[a := call]> (objects st)) (<[call := a]> (cache st)))
  end.

(** [wrap(evaluator, element)].  A [ModuleWrapper] is a wrapper, the last
    branch returns it as it is. *)
Definition wrap (element : ref) (st : store) : ref * store :=
  match element with
  | Raw (PrClass n) => construct (Class n) st
  | Raw (PrFunction n) => construct (Function (PrFunction n) false) st
  | Raw (PrModule n) => construct (ModuleWrapper n) st
  | _ => (element, st)
  end.

(** The constructor call that [wrap] makes for an element, if any. *)
Definition wrapper_call (element : ref) : option obj :=
  match element with
  | Raw (PrClass n) => Some (Class n)
  | Raw (PrFunction n) => Some (Function (PrFunction n) false)
  | Raw (PrModule n) => Some (ModuleWrapper n)
  | _ => None
  end.

(** The rest of a session: any sequence of further calls of [wrap]. *)
Definition wrap_all (elements : list ref) (st : store) : store :=
  foldl (λ st element, (wrap element st).2) st elements.

(** Every cached call leads to the object that was built for it. *)
Definition store_ok (st : store) : Prop :=
  ∀ call a, cache st !! call = Some a → objects st !! a = Some call.

End WrapperCache.

(** ** Descriptions used in the statements *)

Section Descriptions.

Context (T : tree) (C : compiled) (E : evaluator).

Definition log_events (evs : list event) (s : session) : session :=
  Session (events s ++ evs) (memoize_cache s) (execution_stack s).

(** What the super-class statements of a class evaluate to. *)
Definition evaluated_supers (base : node) : list obj :=
  concat (map (eval_statement E) (supers T base)).

(** The bases of a class as the specification describes them: the
    evaluated results that are classes, or [object] alone when there is
    none. *)
Definition spec_bases (base : node) : list obj :=
  let usable := filter (λ cls, is_class_or_compiled cls) (evaluated_supers base) in
  if decide (usable = []) then [object_obj] else usable.

(** One warning for each evaluated result that is not a class. *)
Definition warn_non_class (found : list obj) : list event :=
  (λ _, Warning "Received non class as a super class.") <$>
    filter (λ cls, ¬ is_class_or_compiled cls) found.

Definition bases_warnings (base : node) : list event :=
  warn_non_class (evaluated_supers base).

(** The entry of a class in the table of [py__bases__]. *)
Definition bases_cached (s : session) (b : node) : option (list obj) :=
  memoize_cache s !! ("py__bases__", Class b).

(** What [py__bases__] answers in the session [s]: the entry of the table
    when there is one, the bases that it computes otherwise. *)
Definition bases_answer (s : session) (base : node) : list obj :=
  default (spec_bases base) (bases_cached s base).

(** The session after a call of [py__bases__]: as it was when the table
    had an entry; otherwise with the warnings written and the bases
    stored. *)
Definition after_py__bases__ (base : node) (s : session) : session :=
  match bases_cached s base with
  | Some _ => s
  | None =>
      set_memo ("py__bases__", Class base) (spec_bases base)
        (log_events (bases_warnings base) s)
  end.

(** The table of [py__bases__] holds what completed calls returned: no
    call of [py__bases__] is in progress. *)
Definition bases_table_ok (s : session) : Prop :=
  ∀ b bases, bases_cached s b = Some bases → bases = spec_bases b.

(** The linearization as the specification describes it, given the
    resolution order [order_of] of each base: start with the class, then for
    each base append the base and the classes of its resolution order that
    are not there. *)
Definition spec_linearization (self : obj) (bases : list obj)
    (order_of : obj → list obj) : list obj :=
  foldl (λ mro cls, foldl add (add mro cls) (order_of cls)) [self] bases.

(** What [get_instance_el] does not wrap, and what it makes of the rest
    before wrapping it. *)
Definition left_untouched (var : obj) : bool :=
  match var with
  | Instance _ _ | CompiledObject _ | PrOperator _ | Token _
  | PrModule _ | ModuleWrapper _ | FunctionExecution _ _ => true
  | _ => false
  end.

Definition promoted (var : obj) : obj :=
  match var with
  | PrFunction _ => Function var false
  | PrClass n => Class n
  | _ => var
  end.

(** The outcome of the decorators without the diagnostics: [None] when a
    decorator statement gives no candidate or the chosen candidate gives no
    wrapper, at any step. *)
Fixpoint resolve_decorators (decs : list node) (f : obj) : option obj :=
  match decs with
  | [] => Some f
  | dec :: decs' =>
      match last (eval_statement E dec) with
      | None => None
      | Some decorator =>
          match execute E decorator [Function f true] with
          | [] => None
          | f' :: _ => resolve_decorators decs' f'
          end
      end
  end.

(** The return points that have a statement, each with its flow parent. *)
Definition returned_stmts (rs : list return_point) : list (node * node) :=
  omap (λ r, (λ stmt, (stmt, return_parent r)) <$> return_stmt r) rs.

(** The return points up to the first one that is certain to execute. *)
Fixpoint until_reachable (self : obj) (rs : list (node * node)) : list (node * node) :=
  match rs with
  | [] => []
  | r :: rs' =>
      if decide (break_check E self r.2 = REACHABLE) then [r]
      else r :: until_reachable self rs'
  end.

(** The types that the return points give as the specification describes
    it: those of the statements that are not unreachable, in source order,
    up to the first return that is certain to execute. *)
Definition spec_return_types (self : obj) (rs : list return_point) : list obj :=
  concat (map (λ r, eval_statement E r.1)
            (filter (λ r, break_check E self r.2 ≠ UNREACHABLE)
               (until_reachable self (returned_stmts rs)))).

(** A defined name [<self_name>.<attr>] re-rooted onto the instance. *)
Definition rerooted (self : obj) (self_name : string) (n : name) : option obj :=
  match names n with
  | [first; attr] =>
      if decide (first = self_name)
      then Some (InstanceElement self (PrName (Name [attr] attr)) false)
      else None
  | _ => None
  end.

(** The scope whose names are scanned for the method [sub]: the execution
    of an undecorated [__init__], the parser function otherwise. *)
Definition scanned_scope (self sub : obj) (fn : node) : obj :=
  if decide (name_code T sub = "__init__" ∧ decorators T fn = []) then
    match self with
    | Instance _ var_args => FunctionExecution (get_instance_el self sub true) var_args
    | _ => sub
    end
  else sub.

Definition defined_names_of (scope : obj) : list name :=
  match scope with
  | FunctionExecution base var_args => get_params E base var_args ++ get_defined_names T scope
  | _ => get_defined_names T scope
  end.

(** The self-attributes that one subscope of the class contributes. *)
Definition method_names (self sub : obj) : list obj :=
  match sub with
  | PrFunction fn =>
      match head (params T fn) with
      | None | Some "" => []
      | Some self_name =>
          omap (rerooted self self_name) (defined_names_of (scanned_scope self sub fn))
      end
  | _ => []
  end.

Definition own_names (self : obj) (base : node) : list obj :=
  concat (map (method_names self) (subscopes T base)).

(** The subscopes of a class are classes and functions, and a name has at
    least one segment. *)
Definition well_formed_class (base : node) : Prop :=
  Forall (λ sub, match sub with PrClass _ | PrFunction _ => True | _ => False end)
         (subscopes T base)
  ∧ (∀ scope, Forall (λ n, names n ≠ []) (get_defined_names T scope))
  ∧ (∀ func var_args, Forall (λ n, names n ≠ []) (get_params E func var_args)).

(** The subscopes of a class or of a compiled object. *)
Definition subscopes_of (s : obj) : list obj :=
  match s with
  | Class base => subscopes T base
  | CompiledObject k => compiled_subscopes C k
  | _ => []
  end.

(** The subscope called [name] that is found first in [scopes], the last
    one of a scope first. *)
Fixpoint lookup_subscope (scopes : list obj) (name : string) : option obj :=
  match scopes with
  | [] => None
  | s :: scopes' =>
      match List.find (λ sub, bool_decide (name_code T sub = name))
                      (reverse (subscopes_of s)) with
      | Some sub => Some sub
      | None => lookup_subscope scopes' name
      end
  end.

(** What [get_decorated_func] answers, from the outcome of the
    decorators. *)
Definition decorated_or_original (base_func : obj) (f : option obj) : obj :=
  match f with
  | Some (PrFunction n) => Function (PrFunction n) true
  | Some f => if py_bool T f then f else Function base_func true
  | None => Function base_func true
  end.

(** The entry of a class in the table of [py__mro__]. *)
Definition mro_cached (s : session) (b : node) : option (list obj) :=
  memoize_cache s !! ("py__mro__", Class b).

(** Entries of the table are never changed once they are there. *)
Definition stable (s s' : session) : Prop :=
  ∀ k x, memoize_cache s !! k = Some x → memoize_cache s' !! k = Some x.

(** The resolution order of a class: the class first, no duplicates, all
    bases inside. *)
Definition mro_ok (base : node) (mro : list obj) : Prop :=
  head mro = Some (Class base) ∧ NoDup mro ∧ ∀ cls, cls ∈ spec_bases base → cls ∈ mro.

(** What the table holds while the classes of [F] are being computed: the
    placeholder for them, a resolution order for the others. *)
Definition mro_table_ok (F : node → Prop) (s : session) : Prop :=
  ∀ b mro, mro_cached s b = Some mro → (mro = [] ∧ F b) ∨ mro_ok b mro.

(** The resolution order that the table of [s] has for a base of [base]:
    nothing for the class itself, which is being computed. *)
Definition mro_of (base : node) (s : session) (cls : obj) : list obj :=
  match cls with
  | Class b => if decide (b = base) then [] else default [] (mro_cached s b)
  | CompiledObject k => compiled_mro C k
  | _ => []
  end.

(** The resolution order of a class of a hierarchy without cycles, by the
    linearization of the specification alone: [depth] bounds the height of
    the hierarchy above the class. *)
Fixpoint pure_mro (depth : nat) (cls : obj) : list obj :=
  match cls with
  | Class b =>
      match depth with
      | 0 => []
      | S depth' => spec_linearization cls (spec_bases b) (pure_mro depth')
      end
  | CompiledObject k => compiled_mro C k
  | _ => []
  end.

(** [rank] decreases from a class to its bases. *)
Definition acyclic (rank : node → nat) : Prop :=
  ∀ b c, Class c ∈ spec_bases b → rank c < rank b.

(** The table holds, for the classes of rank below [r], the order that the
    linearization alone gives. *)
Definition exact_below (rank : node → nat) (r : nat) (s : session) : Prop :=
  ∀ b mro, rank b < r → mro_cached s b = Some mro → mro = pure_mro (S (rank b)) (Class b).

Definition exact_table (rank : node → nat) (s : session) : Prop :=
  ∀ b mro, mro_cached s b = Some mro → mro = pure_mro (S (rank b)) (Class b).

(** A set of classes that contains the bases of its classes. *)
Definition closed_hierarchy (U : list node) : Prop :=
  ∀ b c, b ∈ U → Class c ∈ spec_bases b → c ∈ U.

(** The classes of [U] that the table does not know yet. *)
Definition pending (U : list node) (s : session) : nat :=
  length (filter (λ b, mro_cached s b = None) U).

(** A set of call shapes that contains the calls made by the returns of
    its functions. *)
Definition closed_program (program : node → expr) (U : list call_key) : Prop :=
  (∀ f a, (f, a) ∈ U → is_Some (raw_function f))
  ∧ (∀ f a fn r stmt g b,
       (f, a) ∈ U → raw_function f = Some fn → r ∈ returns T fn →
       return_stmt r = Some stmt → program stmt = Call g b → (g, b) ∈ U).

(** The call shapes of [U] that are not in progress. *)
Definition waiting (U : list call_key) (stack : list call_key) : nat :=
  length (filter (λ k, k ∉ stack) U).

(** The resolution order of [base] in a session that has computed those of
    the classes [earlier] before, in that order. *)
Definition mro_after (fuel : nat) (earlier : list node) (base : node) : option (list obj) :=
  match for_each earlier () (λ _ b, _ ← py__mro__ T C E fuel (Class b); mret ())
          fresh_session with
  | Ret _ s =>
      match py__mro__ T C E fuel (Class base) s with
      | Ret mro _ => Some mro
      | _ => None
      end
  | _ => None
  end.

End Descriptions.

(** ** More of the module *)

(** The other collaborators that the methods below read. *)
Record surroundings := {
  parent : obj → obj;                               (* var.parent *)
  instance_names : nat → list name;                 (* CompiledObject.instance_names() *)
  compiled_scope_names : nat → bool → list (obj * list name);
    (* CompiledObject.scope_names_generator(add_class_vars=...) *)
  type_names : list name;                           (* compiled.type_names *)
  create_indexes_or_slices : list obj → list obj;   (* iterable.create_indexes_or_slices *)
  is_slice : obj → bool;                            (* isinstance(i, iterable.Slice) *)
  FakeStatement : list obj → obj;                   (* helpers.FakeStatement(indexes, builtin) *)
}.

Section MoreRepresentation.

Context (T : tree) (C : compiled) (E : evaluator) (X : surroundings).

(** [Instance.execute_subscope_by_name] *)
Definition Instance_execute_subscope_by_name (self : obj) (name : string)
    (args : list obj) : M (list obj) :=
  method ← Instance_get_subscope_by_name T C E self name;
  mret (execute E method args).

(** [Instance.get_index_types] *)
Definition Instance_get_index_types (self : obj) (index_array : list obj) : M (list obj) :=
  let indexes := create_indexes_or_slices X index_array in
  let indexes := if existsb (is_slice X) indexes then [] else indexes in
  let index := FakeStatement X indexes in
  try_except (Instance_execute_subscope_by_name self "__getitem__" [index]) KeyError
    (_ ← warning "No __getitem__, cannot access the array."; mret []).

(** [in_iterable] of [Class.scope_names_generator] *)
Fixpoint in_iterable (nm : name) (iterable : list name) : M bool :=
  match iterable with
  | [] => mret false
  | i :: iterable' =>
      match last (names i), last (names nm) with
      | Some a, Some b => if decide (a = b) then mret true else in_iterable nm iterable'
      | _, _ => raise IndexError
      end
  end.

(** [Class.scope_names_generator], the pairs it yields in order.  Nothing
    is ever appended to [all_names]. *)
Definition Class_scope_names_generator (fuel : nat) (self : obj) (add_class_vars : bool)
    : M (list (obj * list name)) :=
  match self with
  | Class _ =>
      let all_names : list name := [] in
      mro ← py__mro__ T C E fuel self;
      yielded ← for_each mro ([] : list (obj * list name)) (λ yielded cls,
        x ← match cls with
             | CompiledObject k => mret (instance_names X k)
             | Class b => mret (reverse (get_defined_names T (PrClass b)))
             | _ => raise AttributeError
             end;
        names_ ← for_each x ([] : list name) (λ names_ n,
          found ← in_iterable n all_names;
          if found : bool then (mret names_ : M (list name)) else mret (names_ ++ [n]));
        mret (yielded ++ [(cls, names_)]));
      if add_class_vars then (mret (yielded ++ [(self, type_names X)]) : M _)
      else mret yielded
  | _ => raise AttributeError
  end.

(** [base.scope_names_generator(add_class_vars=...)]: the method of
    [Class], or the one of the compiled model. *)
Definition call_scope_names_generator (fuel : nat) (base : obj) (add_class_vars : bool)
    : M (list (obj * list name)) :=
  match base with
  | Class _ => Class_scope_names_generator fuel base add_class_vars
  | CompiledObject k => mret (compiled_scope_names X k add_class_vars)
  | _ => raise AttributeError
  end.

(** [Instance.scope_names_generator], the pairs it yields in order. *)
Definition Instance_scope_names_generator (fuel : nat) (self : obj)
    : M (list (obj * list obj)) :=
  match self with
  | Instance base _ =>
      attributes ← get_self_attributes T C E fuel self;
      scopes ← call_scope_names_generator fuel base false;
      mret ((self, attributes)
            :: map (λ '(scope, names_),
                      (self, map (λ var, get_instance_el self (PrName var) true) names_))
                   scopes)
  | _ => raise AttributeError
  end.

(** [instance.base] *)
Definition instance_base (instance : obj) : M obj :=
  match instance with
  | Instance base _ => mret base
  | _ => raise AttributeError
  end.

(** [InstanceElement.parent] *)
Definition InstanceElement_parent (self : obj) : M obj :=
  match self with
  | InstanceElement instance var is_class_var =>
      let par := parent X var in
      match par with
      | Class _ =>
          ibase ← instance_base instance;
          if decide (par = ibase) then mret instance
          else mret (get_instance_el instance par is_class_var)
      | PrClass n =>
          ibase ← instance_base instance;
          match ibase with
          | Class b => if decide (n = b) then mret instance
                       else mret (get_instance_el instance par is_class_var)
          | _ => raise AttributeError
          end
      | _ => mret (get_instance_el instance par is_class_var)
      end
  | _ => raise AttributeError
  end.

(** [var.get_decorated_func()]: [Function.get_decorated_func], or
    [InstanceElement.get_decorated_func] when the variable is an
    [InstanceElement] itself. *)
Fixpoint call_get_decorated_func (o : obj) : M obj :=
  match o with
  | Function _ _ => get_decorated_func T E o
  | InstanceElement instance var _ =>
      func ← call_get_decorated_func var;
      mret (get_instance_el instance func false)
  | _ => raise AttributeError
  end.

End MoreRepresentation.

(** ** More descriptions *)

Section MoreDescriptions.

Context (T : tree) (C : compiled) (E : evaluator) (X : surroundings).

(** The classes above a class: its bases, the bases of its bases and so
    on, and for a compiled base what its own resolution order lists. *)
Inductive ancestor : obj → obj → Prop :=
  | ancestor_base b cls :
      cls ∈ spec_bases T E b → ancestor (Class b) cls
  | ancestor_compiled k cls :
      cls ∈ compiled_mro C k → ancestor (CompiledObject k) cls
  | ancestor_step b cls above :
      cls ∈ spec_bases T E b → ancestor cls above → ancestor (Class b) above.

(** The names that [Class.scope_names_generator] reads for a class of the
    resolution order. *)
Definition names_of (cls : obj) : list name :=
  match cls with
  | CompiledObject k => instance_names X k
  | Class b => reverse (get_defined_names T (PrClass b))
  | _ => []
  end.

(** The entry of an instance in the table of [get_self_attributes]. *)
Definition attrs_cached (s : session) (inst : obj) : option (list obj) :=
  memoize_cache s !! ("get_self_attributes", inst).

(** A self-attribute: the copied name [attr], of one segment, bound to an
    instance as an instance variable. *)
Definition self_attribute (x : obj) : Prop :=
  ∃ inst attr, x = InstanceElement inst (PrName (Name [attr] attr)) false.

(** The table of [get_self_attributes] holds self-attributes only. *)
Definition attrs_table_ok (s : session) : Prop :=
  ∀ inst names_, attrs_cached s inst = Some names_ → Forall self_attribute names_.

(** A set of instances of well-formed classes that contains the instances
    that executing the bases of their classes gives. *)
Definition closed_instances (U : list obj) : Prop :=
  ∀ inst, inst ∈ U →
    ∃ base var_args,
      inst = Instance (Class base) var_args
      ∧ well_formed_class T E base
      ∧ ∀ cls above, cls ∈ spec_bases T E base → above ∈ execute E cls [] →
          (∃ k, cls = CompiledObject k) ∨ above ∈ U.

(** The instances of [U] that the table does not know yet. *)
Definition unknown_attrs (U : list obj) (s : session) : nat :=
  length (filter (λ inst, attrs_cached s inst = None) U).

End MoreDescriptions.

(** ** Example programs *)

Definition empty_tree : tree := {|
  supers := λ _, [];
  subscopes := λ _, [];
  name_code := λ _, "";
  params := λ _, [];
  decorators := λ _, [];
  get_defined_names := λ _, [];
  returns := λ _, [];
  listeners := λ _, [];
  is_generator := λ _, false;
  expression_list := λ _, [];
  node_truth := λ _, true;
|}.

Definition std_compiled : compiled := {|
  compiled_mro := λ k, [CompiledObject k];
  compiled_bases := λ _, [];
  compiled_subscopes := λ _, [];
  compiled_get_subscope_by_name := λ _ _, None;
|}.

Definition no_evaluator : evaluator := {|
  eval_statement := λ _, [];
  execute := λ _ _, [];
  break_check := λ _ _, UNSURE;
  find_return_types := λ _, [];
  get_params := λ _ _, [];
|}.

(** [class A(object)], [class B(A)], [class C(B, A)]: the class nodes are 1,
    2 and 3; the statements 10, 11 and 12 name [A], [B] and [object]. *)
Definition abc_tree : tree := {|
  supers := λ n, match n with 1 => [12] | 2 => [10] | 3 => [11; 10] | _ => [] end;
  subscopes := subscopes empty_tree;
  name_code := name_code empty_tree;
  params := params empty_tree;
  decorators := decorators empty_tree;
  get_defined_names := get_defined_names empty_tree;
  returns := returns empty_tree;
  listeners := listeners empty_tree;
  is_generator := is_generator empty_tree;
  expression_list := expression_list empty_tree;
  node_truth := node_truth empty_tree;
|}.

Definition abc_evaluator : evaluator := {|
  eval_statement := λ s,
    match s with 10 => [Class 1] | 11 => [Class 2] | 12 => [object_obj] | _ => [] end;
  execute := execute no_evaluator;
  break_check := break_check no_evaluator;
  find_return_types := find_return_types no_evaluator;
  get_params := get_params no_evaluator;
|}.

(** [class A(B)], [class B(C)], [class C(A)], a cycle of inheritance: the
    class nodes are 1, 2 and 3; the statements 10, 11 and 13 name [A], [B]
    and [C]. *)
Definition cycle_tree : tree := {|
  supers := λ n, match n with 1 => [11] | 2 => [13] | 3 => [10] | _ => [] end;
  subscopes := subscopes empty_tree;
  name_code := name_code empty_tree;
  params := params empty_tree;
  decorators := decorators empty_tree;
  get_defined_names := get_defined_names empty_tree;
  returns := returns empty_tree;
  listeners := listeners empty_tree;
  is_generator := is_generator empty_tree;
  expression_list := expression_list empty_tree;
  node_truth := node_truth empty_tree;
|}.

Definition cycle_evaluator : evaluator := {|
  eval_statement := λ s,
    match s with 10 => [Class 1] | 11 => [Class 2] | 13 => [Class 3] | _ => [] end;
  execute := execute no_evaluator;
  break_check := break_check no_evaluator;
  find_return_types := find_return_types no_evaluator;
  get_params := get_params no_evaluator;
|}.

(** [class A: def __call__(self): ...], [class B(A)], [class C(B)]: the
    class nodes are 1, 2 and 3, the method is the function node 4. *)
Definition chain_tree : tree := {|
  supers := λ n, match n with 1 => [12] | 2 => [10] | 3 => [11] | _ => [] end;
  subscopes := λ n, match n with 1 => [PrFunction 4] | _ => [] end;
  name_code := λ o, match o with PrFunction 4 => "__call__" | _ => "" end;
  params := λ n, match n with 4 => ["self"] | _ => [] end;
  decorators := decorators empty_tree;
  get_defined_names := get_defined_names empty_tree;
  returns := returns empty_tree;
  listeners := listeners empty_tree;
  is_generator := is_generator empty_tree;
  expression_list := expression_list empty_tree;
  node_truth := node_truth empty_tree;
|}.

(** The compiled classes [int] and [str]. *)
Definition int_obj : obj := CompiledObject 1.
Definition str_obj : obj := CompiledObject 2.

(** [def f(): return 1; return "x"]: the function node is 1, the statements
    [1] and ["x"] are the nodes 30 and 31, and both returns stand in the
    body of the function, the flow node 40. *)
Definition two_returns_tree : tree := {|
  supers := supers empty_tree;
  subscopes := subscopes empty_tree;
  name_code := name_code empty_tree;
  params := params empty_tree;
  decorators := decorators empty_tree;
  get_defined_names := get_defined_names empty_tree;
  returns := λ n,
    match n with
    | 1 => [KeywordStatement (Some 30) 40; KeywordStatement (Some 31) 40]
    | _ => []
    end;
  listeners := listeners empty_tree;
  is_generator := is_generator empty_tree;
  expression_list := expression_list empty_tree;
  node_truth := node_truth empty_tree;
|}.

(** The same function with a listener, 7, registered on it. *)
Definition listened_tree : tree := {|
  supers := supers empty_tree;
  subscopes := subscopes empty_tree;
  name_code := name_code empty_tree;
  params := params empty_tree;
  decorators := decorators empty_tree;
  get_defined_names := get_defined_names empty_tree;
  returns := returns two_returns_tree;
  listeners := λ n, match n with 1 => [7] | _ => [] end;
  is_generator := is_generator empty_tree;
  expression_list := expression_list empty_tree;
  node_truth := node_truth empty_tree;
|}.

Definition two_returns_evaluator : evaluator := {|
  eval_statement := λ s, match s with 30 => [int_obj] | 31 => [str_obj] | _ => [] end;
  execute := execute no_evaluator;
  break_check := λ _ _, REACHABLE;
  find_return_types := find_return_types no_evaluator;
  get_params := get_params no_evaluator;
|}.

(** [def f(x): return g(x)] and [def g(x): return f(x)]: the function nodes
    are 1 and 2, the statements [g(x)] and [f(x)] are the nodes 20 and 21,
    and the argument arrays are the nodes 50 and 51. *)
Definition mutual_tree : tree := {|
  supers := supers empty_tree;
  subscopes := subscopes empty_tree;
  name_code := name_code empty_tree;
  params := λ n, match n with 1 | 2 => ["x"] | _ => [] end;
  decorators := decorators empty_tree;
  get_defined_names := get_defined_names empty_tree;
  returns := λ n,
    match n with
    | 1 => [KeywordStatement (Some 20) 40]
    | 2 => [KeywordStatement (Some 21) 41]
    | _ => []
    end;
  listeners := listeners empty_tree;
  is_generator := is_generator empty_tree;
  expression_list := expression_list empty_tree;
  node_truth := node_truth empty_tree;
|}.

Definition mutual_program (stmt : node) : expr :=
  match stmt with
  | 20 => Call (Function (PrFunction 2) false) [PrSimple 50]
  | 21 => Call (Function (PrFunction 1) false) [PrSimple 51]
  | _ => Literal []
  end.

Definition mutual_calls : list call_key :=
  [(Function (PrFunction 1) false, [PrSimple 51]);
   (Function (PrFunction 2) false, [PrSimple 50])].

(** A function, node 5, under one decorator, the statement 20, which
    evaluates to two candidates; and a function, node 6, under a decorator,
    the statement 25, which evaluates to nothing. *)
Definition decorated_tree : tree := {|
  supers := supers empty_tree;
  subscopes := subscopes empty_tree;
  name_code := name_code empty_tree;
  params := params empty_tree;
  decorators := λ n, match n with 5 => [20] | 6 => [25] | _ => [] end;
  get_defined_names := get_defined_names empty_tree;
  returns := returns empty_tree;
  listeners := listeners empty_tree;
  is_generator := is_generator empty_tree;
  expression_list := expression_list empty_tree;
  node_truth := node_truth empty_tree;
|}.

Definition decorated_evaluator : evaluator := {|
  eval_statement := λ s,
    match s with 20 => [CompiledObject 11; CompiledObject 12] | _ => [] end;
  execute := λ decorator _,
    match decorator with
    | CompiledObject 11 => [CompiledObject 21]
    | CompiledObject 12 => [CompiledObject 22]
    | _ => []
    end;
  break_check := break_check no_evaluator;
  find_return_types := find_return_types no_evaluator;
  get_params := get_params no_evaluator;
|}.

(** [class A: @dec def __init__(self): self.x = 1]: the class node is 1, the
    function node is 2, the decorator is the statement 21. *)
Definition decorated_init_tree : tree := {|
  supers := supers empty_tree;
  subscopes := λ n, match n with 1 => [PrFunction 2] | _ => [] end;
  name_code := λ o, match o with PrFunction 2 => "__init__" | _ => "" end;
  params := λ n, match n with 2 => ["self"] | _ => [] end;
  decorators := λ n, match n with 2 => [21] | _ => [] end;
  get_defined_names := λ o,
    match o with PrFunction 2 => [Name ["self"; "x"] "self.x"] | _ => [] end;
  returns := returns empty_tree;
  listeners := listeners empty_tree;
  is_generator := is_generator empty_tree;
  expression_list := expression_list empty_tree;
  node_truth := node_truth empty_tree;
|}.

(** Collaborators that know nothing. *)
Definition no_surroundings : surroundings := {|
  parent := λ o, o;
  instance_names := λ _, [];
  compiled_scope_names := λ _ _, [];
  type_names := [Name ["__class__"] "__class__"];
  create_indexes_or_slices := λ index_array, index_array;
  is_slice := λ _, false;
  FakeStatement := λ _, PrSimple 0;
|}.

(** The cycle [A(B)], [B(C)], [C(A)] with an evaluator that executes a
    class into its instance without arguments. *)
Definition cycle_instances_evaluator : evaluator := {|
  eval_statement := eval_statement cycle_evaluator;
  execute := λ callee _, match callee with Class n => [Instance (Class n) []] | _ => [] end;
  break_check := break_check no_evaluator;
  find_return_types := find_return_types no_evaluator;
  get_params := get_params no_evaluator;
|}.

Definition cycle_instances : list obj :=
  [Instance (Class 1) []; Instance (Class 2) []; Instance (Class 3) []].

(** The rank of the classes [A], [B] and [C] of [abc_tree]. *)
Definition abc_rank (n : node) : nat := n.

(** The session in which a computation ends. *)
Definition final_session {A} (r : outcome A) : session :=
  match r with
  | Ret _ s | Raise _ s => s
  | OutOfFuel => fresh_session
  end.

(** * Properties *)

Section Properties.

Context (T : tree) (C : compiled) (E : evaluator).

(** ** The monad and the loops *)

Lemma log_events_nil s : log_events [] s = s.
Proof. destruct s. unfold log_events. simpl. by rewrite app_nil_r. Qed.

Lemma log_events_app evs1 evs2 s :
  log_events evs2 (log_events evs1 s) = log_events (evs1 ++ evs2) s.
Proof. unfold log_events. simpl. by rewrite app_assoc. Qed.

Lemma bind_unfold {A B} (m : M A) (k : A → M B) s :
  (m ≫= k) s = match m s with
               | Ret a s' => k a s'
               | Raise e s' => Raise e s'
               | OutOfFuel => OutOfFuel
               end.
Proof. done. Qed.

Lemma for_each_nil {A B} (acc : B) (body : B → A → M B) s :
  for_each [] acc body s = Ret acc s.
Proof. done. Qed.

Lemma for_each_cons {A B} x (l : list A) (acc : B) (body : B → A → M B) s :
  for_each (x :: l) acc body s =
    match body acc x s with
    | Ret acc' s' => for_each l acc' body s'
    | Raise e s' => Raise e s'
    | OutOfFuel => OutOfFuel
    end.
Proof. done. Qed.

Lemma warning_unfold msg s : warning msg s = Ret () (log_events [Warning msg] s).
Proof. done. Qed.

Lemma dbg_unfold msg s : dbg msg s = Ret () (log_events [Dbg msg] s).
Proof. done. Qed.

(** ** py__bases__ *)

Lemma keep_classes_run found supers s :
  keep_classes found supers s =
    Ret (supers ++ filter (λ cls, is_class_or_compiled cls) found)
        (log_events (warn_non_class found) s).
Proof.
  unfold keep_classes, warn_non_class. revert supers s.
  induction found as [|cls found IH]; intros supers s.
  - rewrite for_each_nil. cbn. by rewrite app_nil_r, log_events_nil.
  - rewrite for_each_cons, !filter_cons.
    destruct (is_class_or_compiled cls) eqn:Hc.
    + cbn [mret M_ret]. rewrite IH.
      rewrite decide_True, decide_False by (rewrite ?Hc; naive_solver).
      by rewrite <- app_assoc.
    + rewrite bind_unfold, warning_unfold. cbn [mret M_ret]. rewrite IH.
      rewrite decide_False, decide_True by (rewrite ?Hc; naive_solver).
      by rewrite fmap_cons, log_events_app.
Qed.

Lemma supers_loop_run stmts supers s :
  for_each stmts supers (λ supers s, keep_classes (eval_statement E s) supers) s =
    Ret (supers ++ filter (λ cls, is_class_or_compiled cls)
                     (concat (map (eval_statement E) stmts)))
        (log_events (warn_non_class (concat (map (eval_statement E) stmts))) s).
Proof.
  revert supers s. induction stmts as [|st stmts IH]; intros supers s.
  - rewrite for_each_nil. cbn. by rewrite app_nil_r, log_events_nil.
  - rewrite for_each_cons, keep_classes_run, IH. cbn [map concat].
    unfold warn_non_class.
    by rewrite !filter_app, fmap_app, log_events_app, app_assoc.
Qed.

Lemma set_memo_twice key rv rv' s :
  set_memo key rv (set_memo key rv' s) = set_memo key rv s.
Proof. unfold set_memo. cbn. by rewrite insert_insert_eq. Qed.

Lemma set_memo_log_events key rv evs s :
  set_memo key rv (log_events evs s) = log_events evs (set_memo key rv s).
Proof. done. Qed.

(** The body of [py__bases__], which a call without an entry in the table
    runs. *)
Lemma py__bases___body_run base s :
  (supers ← for_each (supers T base) []
              (λ supers s, keep_classes (eval_statement E s) supers);
   if decide (supers = []) then mret (supers ++ [object_obj]) else mret supers) s =
    Ret (spec_bases T E base) (log_events (bases_warnings T E base) s).
Proof.
  unfold spec_bases, bases_warnings, evaluated_supers.
  rewrite bind_unfold, supers_loop_run. cbn [app]. unfold warn_non_class.
  destruct (decide (filter _ _ = [])) as [->|Hne]; done.
Qed.

Lemma py__bases___run base s :
  py__bases__ T E base s = Ret (bases_answer T E s base) (after_py__bases__ T E base s).
Proof.
  unfold py__bases__, memoize_default, bases_answer, after_py__bases__, bases_cached.
  destruct (memoize_cache s !! ("py__bases__", Class base)) as [rv|]; [done|].
  rewrite py__bases___body_run. cbn [default].
  by rewrite <- set_memo_log_events, set_memo_twice.
Qed.

Lemma bases_answer_ok base s :
  bases_table_ok T E s → bases_answer T E s base = spec_bases T E base.
Proof.
  intros Hok. unfold bases_answer. destruct (bases_cached s base) as [bases|] eqn:Hc; [|done].
  by apply Hok.
Qed.

Lemma bases_cached_set_memo_eq base v s :
  bases_cached (set_memo ("py__bases__", Class base) v s) base = Some v.
Proof. unfold bases_cached. cbn. by rewrite lookup_insert_eq. Qed.

Lemma bases_cached_set_memo_ne method key v s b :
  (method, key) ≠ ("py__bases__", Class b) →
  bases_cached (set_memo (method, key) v s) b = bases_cached s b.
Proof. intros Hne. unfold bases_cached. cbn. by rewrite lookup_insert_ne. Qed.

Lemma after_py__bases___ok base s :
  bases_table_ok T E s → bases_table_ok T E (after_py__bases__ T E base s).
Proof.
  intros Hok. unfold after_py__bases__.
  destruct (bases_cached s base) as [rv|] eqn:Hc; [done|].
  intros b bases. destruct (decide (b = base)) as [->|Hne].
  - rewrite bases_cached_set_memo_eq. by intros [= <-].
  - rewrite bases_cached_set_memo_ne by (intros [= ?]; done). apply Hok.
Qed.

Lemma after_py__bases___cache base s k :
  k.1 ≠ "py__bases__" →
  memoize_cache (after_py__bases__ T E base s) !! k = memoize_cache s !! k.
Proof.
  intros Hk. unfold after_py__bases__. destruct (bases_cached s base); [done|].
  cbn. rewrite lookup_insert_ne; [done|]. intros <-. done.
Qed.

Lemma after_py__bases___keeps base s k x :
  memoize_cache s !! k = Some x → memoize_cache (after_py__bases__ T E base s) !! k = Some x.
Proof.
  intros Hk. unfold after_py__bases__, bases_cached.
  destruct (memoize_cache s !! ("py__bases__", Class base)) eqn:Hc; [done|].
  cbn. rewrite lookup_insert_ne; [done|]. intros <-. congruence.
Qed.

Lemma after_py__bases___stack base s :
  execution_stack (after_py__bases__ T E base s) = execution_stack s.
Proof. unfold after_py__bases__. by destruct (bases_cached s base). Qed.

Lemma spec_bases_classes base :
  Forall (λ cls, is_class_or_compiled cls) (spec_bases T E base).
Proof.
  unfold spec_bases. destruct (decide _) as [_|_].
  - by repeat constructor.
  - apply Forall_forall. intros cls Hin. by apply list_elem_of_filter in Hin as [? _].
Qed.

(** C6, as the code has it.  A call of [py__bases__] that finds no entry
    for the class in the table returns the evaluated super classes that are
    classes or compiled objects; each other result is dropped with one
    warning; when none is left the list is [object] alone; this list is
    never empty, and it is stored.  A call that finds an entry returns the
    entry, evaluates nothing and writes nothing: in a session whose table
    holds the lists of completed calls that is the same list again, and
    while a call on the class is in progress it is the empty placeholder. *)
Theorem py__bases___computed_never_empty (base : node) (s : session) :
  (bases_cached s base = None →
   py__bases__ T E base s =
     Ret (spec_bases T E base)
         (set_memo ("py__bases__", Class base) (spec_bases T E base)
            (log_events (bases_warnings T E base) s)))
  ∧ (∀ entry, bases_cached s base = Some entry → py__bases__ T E base s = Ret entry s)
  ∧ (bases_table_ok T E s →
     ∃ s', py__bases__ T E base s = Ret (spec_bases T E base) s' ∧ bases_table_ok T E s')
  ∧ (bases_cached (set_memo ("py__bases__", Class base) [] s) base = Some []
     ∧ py__bases__ T E base (set_memo ("py__bases__", Class base) [] s) =
         Ret [] (set_memo ("py__bases__", Class base) [] s))
  ∧ spec_bases T E base ≠ []
  ∧ Forall (λ cls, is_class_or_compiled cls) (spec_bases T E base)
  ∧ (filter (λ cls, is_class_or_compiled cls) (evaluated_supers T E base) = [] →
     spec_bases T E base = [object_obj])
  ∧ length (bases_warnings T E base) =
      length (filter (λ cls, ¬ is_class_or_compiled cls) (evaluated_supers T E base)).
Proof.
  split; [|split; [|split; [|split]]].
  - intros Hmiss. rewrite py__bases___run. unfold bases_answer, after_py__bases__.
    by rewrite Hmiss.
  - intros entry Hentry. rewrite py__bases___run. unfold bases_answer, after_py__bases__.
    by rewrite Hentry.
  - intros Hok. exists (after_py__bases__ T E base s).
    rewrite py__bases___run, bases_answer_ok by done. split; [done|].
    by apply after_py__bases___ok.
  - rewrite bases_cached_set_memo_eq. split; [done|].
    rewrite py__bases___run. unfold bases_answer, after_py__bases__.
    by rewrite bases_cached_set_memo_eq.
  - split; [|split; [apply spec_bases_classes|split]].
    + unfold spec_bases. by destruct (decide _).
    + intros Hnone. unfold spec_bases. by rewrite decide_True.
    + unfold bases_warnings, warn_non_class. by rewrite length_fmap.
Qed.

(** ** get_subscope_by_name and Instance.py__call__ *)

Lemma find_subscope_run scopes name s :
  Forall (λ cls, is_class_or_compiled cls) scopes →
  find_subscope T C scopes name s =
    match lookup_subscope T C scopes name with
    | Some sub => Ret sub s
    | None => Raise KeyError s
    end.
Proof.
  intros Hall. induction Hall as [|scope scopes Hscope _ IH]; [done|].
  cbn [find_subscope lookup_subscope]. rewrite bind_unfold.
  destruct scope; try done; cbn [getattr_subscopes subscopes_of mret M_ret];
    by destruct (List.find _ _).
Qed.

(** The call protocol of an instance looks for [__call__] in the class and
    in its direct bases, and nowhere else. *)
Lemma Class_get_subscope_by_name_run base name s :
  bases_table_ok T E s →
  Class_get_subscope_by_name T C E base name s =
    match lookup_subscope T C (Class base :: spec_bases T E base) name with
    | Some sub => Ret sub (after_py__bases__ T E base s)
    | None => Raise KeyError (after_py__bases__ T E base s)
    end.
Proof.
  intros Hok. unfold Class_get_subscope_by_name.
  rewrite bind_unfold, py__bases___run, bases_answer_ok by done. cbn [app].
  apply find_subscope_run. constructor; [done|apply spec_bases_classes].
Qed.

Lemma Instance_py__call___run base var_args s :
  let self := Instance (Class base) var_args in
  bases_table_ok T E s →
  Instance_py__call__ T C E self s =
    match lookup_subscope T C (Class base :: spec_bases T E base) "__call__" with
    | Some sub =>
        Ret (λ params, execute E (get_instance_el self sub true) params)
            (after_py__bases__ T E base s)
    | None => Raise AttributeError (after_py__bases__ T E base s)
    end.
Proof.
  cbn zeta. intros Hok.
  unfold Instance_py__call__, Instance_get_subscope_by_name, try_except.
  rewrite !bind_unfold. cbn [call_get_subscope_by_name].
  rewrite Class_get_subscope_by_name_run by done.
  by destruct (lookup_subscope _ _ _ _).
Qed.

(** ** get_instance_el *)

(** C10.  [get_instance_el] returns an [Instance], a compiled object, an
    operator, a token, a module or a [FunctionExecution] as it is; anything
    else is wrapped in an [InstanceElement], a parser function or class
    being first turned into its [Function] or [Class] wrapper.  So the
    children that an [InstanceElement] hands out are left as they are when
    they are of those kinds. *)
Theorem get_instance_el_kinds (instance var : obj) (is_class_var : bool) (s : session) :
  get_instance_el instance var is_class_var =
    (if left_untouched var then var
     else InstanceElement instance (promoted var) is_class_var)
  ∧ InstanceElement_expression_list T (InstanceElement instance var is_class_var) s =
      Ret (map (λ command, if left_untouched command then command
                           else InstanceElement instance (promoted command) is_class_var)
               (expression_list T var)) s.
Proof.
  assert (Hel : ∀ v, get_instance_el instance v is_class_var =
            if left_untouched v then v
            else InstanceElement instance (promoted v) is_class_var).
  { by intros []. }
  split; [apply Hel|].
  cbn. unfold mret, M_ret. f_equal. apply map_ext. intros v. apply Hel.
Qed.

(** ** Decorators *)

Lemma pop_last {A} (l : list A) :
  pop l = match last l with
          | None => None
          | Some x => Some (x, removelast l)
          end.
Proof.
  unfold pop. destruct l as [|a l] using rev_ind.
  - done.
  - rewrite reverse_snoc, last_snoc, reverse_involutive, removelast_last. done.
Qed.

Lemma pop_snoc {A} (l : list A) x : pop (l ++ [x]) = Some (x, l).
Proof. unfold pop. by rewrite reverse_snoc, reverse_involutive. Qed.

Lemma apply_decorators_run decs f s :
  ∃ evs, apply_decorators E decs f s = Ret (resolve_decorators E decs f) (log_events evs s).
Proof.
  revert f s. induction decs as [|dec decs IH]; intros f s.
  - exists []. cbn. by rewrite log_events_nil.
  - cbn [apply_decorators resolve_decorators].
    rewrite bind_unfold, dbg_unfold, pop_last.
    destruct (last (eval_statement E dec)) as [decorator|].
    + rewrite bind_unfold.
      set (s1 := log_events [Dbg _] s).
      assert (∃ evs1, (if decide (removelast (eval_statement E dec) = []) then mret ()
                       else warning "multiple decorators found %s %s") s1
                      = Ret () (log_events evs1 s)) as [evs1 ->].
      { destruct (decide _).
        - eexists. reflexivity.
        - eexists. rewrite warning_unfold. unfold s1. by rewrite log_events_app. }
      destruct (execute E decorator [Function f true]) as [|f' others].
      * eexists. rewrite bind_unfold, warning_unfold. cbn [mret M_ret].
        by rewrite log_events_app.
      * rewrite bind_unfold.
        assert (∃ evs2, (if decide (others = []) then mret ()
                         else warning "multiple wrappers found %s %s") (log_events evs1 s)
                        = Ret () (log_events evs2 s)) as [evs2 ->].
        { destruct (decide _).
          - eexists. reflexivity.
          - eexists. rewrite warning_unfold. by rewrite log_events_app. }
        rewrite bind_unfold, dbg_unfold, log_events_app.
        destruct (IH f' (log_events (evs2 ++ [Dbg "decorator end %s"]) s)) as [evs3 ->].
        eexists. by rewrite log_events_app.
    + eexists. rewrite bind_unfold, warning_unfold. cbn [mret M_ret].
      by rewrite log_events_app.
Qed.

(** C4, as the code has it.  When a decorator statement evaluates to more
    than one candidate, the loop of [_decorated_func] calls the last
    candidate, the one that [pop()] takes, on the function wrapper marked as
    decorated, and writes the warning "multiple decorators found"; the
    first wrapper that the call gives is the function of the next step.
    [_decorated_func] runs this loop over the decorators in reverse
    order. *)
Theorem _decorated_func_takes_last_candidate
    (dec : node) (decs : list node) (f : obj) (candidates : list obj) (chosen : obj)
    (s : session) :
  eval_statement E dec = candidates ++ [chosen] →
  candidates ≠ [] →
  apply_decorators E (dec :: decs) f s =
    match execute E chosen [Function f true] with
    | [] =>
        Ret None (log_events [Dbg "decorator: %s %s";
                              Warning "multiple decorators found %s %s";
                              Warning "no wrappers found %s"] s)
    | f' :: others =>
        apply_decorators E decs f'
          (log_events ([Dbg "decorator: %s %s";
                        Warning "multiple decorators found %s %s"]
                       ++ (if decide (others = []) then []
                           else [Warning "multiple wrappers found %s %s"])
                       ++ [Dbg "decorator end %s"]) s)
    end
  ∧ (∀ fn, decorators T fn = [dec] →
       _decorated_func T E (Function (PrFunction fn) false) s =
         match execute E chosen [Function (PrFunction fn) true] with
         | [] =>
             Ret None (log_events [Dbg "decorator: %s %s";
                                   Warning "multiple decorators found %s %s";
                                   Warning "no wrappers found %s"] s)
         | f' :: others =>
             Ret (Some (match f' with
                        | PrFunction n => Function (PrFunction n) true
                        | _ => f'
                        end))
               (log_events ([Dbg "decorator: %s %s";
                             Warning "multiple decorators found %s %s"]
                            ++ (if decide (others = []) then []
                                else [Warning "multiple wrappers found %s %s"])
                            ++ [Dbg "decorator end %s"]) s)
         end).
Proof.
  intros Heval Hmany.
  assert (Hstep : ∀ decs f, apply_decorators E (dec :: decs) f s =
    match execute E chosen [Function f true] with
    | [] =>
        Ret None (log_events [Dbg "decorator: %s %s";
                              Warning "multiple decorators found %s %s";
                              Warning "no wrappers found %s"] s)
    | f' :: others =>
        apply_decorators E decs f'
          (log_events ([Dbg "decorator: %s %s";
                        Warning "multiple decorators found %s %s"]
                       ++ (if decide (others = []) then []
                           else [Warning "multiple wrappers found %s %s"])
                       ++ [Dbg "decorator end %s"]) s)
    end).
  { clear decs f. intros decs f. cbn [apply_decorators].
    rewrite bind_unfold, dbg_unfold, Heval, pop_snoc, bind_unfold.
    rewrite decide_False by done.
    rewrite warning_unfold, log_events_app.
    destruct (execute E chosen [Function f true]) as [|f' others].
    - rewrite bind_unfold, warning_unfold, log_events_app. done.
    - rewrite bind_unfold. destruct (decide (others = [])).
      + cbn [mret M_ret]. rewrite bind_unfold, dbg_unfold, log_events_app. done.
      + rewrite warning_unfold, log_events_app, bind_unfold, dbg_unfold, log_events_app.
        done. }
  split; [apply Hstep|].
  intros fn Hdecs. unfold _decorated_func. rewrite !bind_unfold.
  cbn [getattr_function raw_function mret M_ret]. rewrite Hdecs. cbn [reverse rev_append].
  change (reverse [dec]) with [dec]. rewrite Hstep.
  destruct (execute E chosen [Function (PrFunction fn) true]) as [|f' others]; [done|].
  cbn [apply_decorators mret M_ret]. by destruct f'.
Qed.

(** C5.  For a function wrapper that is marked as decorated or wraps a
    function, [get_decorated_func] returns an object and raises nothing;
    when the decorators give no result, because a decorator statement has
    no candidate or a decorator gives no wrapper, at any step, what it
    returns is the original function marked as decorated. *)
Theorem get_decorated_func_always_returns
    (base_func : obj) (is_decorated : bool) (s : session) :
  is_decorated = true ∨ is_Some (raw_function base_func) →
  ∃ f s',
    get_decorated_func T E (Function base_func is_decorated) s = Ret f s'
    ∧ (is_decorated = true → f = decorated_or_original T base_func (Some base_func))
    ∧ (∀ fn, is_decorated = false → raw_function base_func = Some fn →
         f = decorated_or_original T base_func
               (resolve_decorators E (reverse (decorators T fn)) base_func)
         ∧ (resolve_decorators E (reverse (decorators T fn)) base_func = None →
            f = Function base_func true)).
Proof.
  intros Hwf. unfold get_decorated_func. rewrite bind_unfold.
  unfold _decorated_func. rewrite bind_unfold.
  destruct is_decorated.
  - cbn [mret M_ret].
    exists (decorated_or_original T base_func (Some base_func)), s.
    split; [|split; [done|by intros fn [=]]].
    unfold decorated_or_original. destruct base_func; cbn; try done.
    + by destruct (bool_decide _).
    + by destruct (node_truth _ _).
  - destruct Hwf as [[=]|[fn Hfn]].
    rewrite bind_unfold. unfold getattr_function. rewrite Hfn. cbn [mret M_ret].
    destruct (apply_decorators_run (reverse (decorators T fn)) base_func s) as [evs ->].
    exists (decorated_or_original T base_func
              (resolve_decorators E (reverse (decorators T fn)) base_func)),
           (log_events evs s).
    split; [|split; [by intros [=]|]].
    + destruct (resolve_decorators _ _ _) as [f|]; [|done].
      unfold decorated_or_original. destruct f; cbn; try done.
      * by destruct (bool_decide _).
      * by destruct (node_truth _ _).
    + intros fn' _ Hfn'. injection Hfn' as <-.
      split; [done|]. by intros ->.
Qed.


(** ** get_return_types *)

Lemma returns_loop_pure self rs types s :
  returns_loop E (eval_statement_pure E) self rs types s =
    Ret (types ++ spec_return_types E self rs) s.
Proof.
  unfold spec_return_types, returned_stmts. revert types.
  induction rs as [|r rs IH]; intros types.
  - cbn. by rewrite app_nil_r.
  - cbn [returns_loop omap list_omap]. destruct (return_stmt r) as [stmt|]; cbn [fmap option_fmap option_map].
    + cbn [until_reachable snd]. rewrite bind_unfold.
      destruct (break_check E self (return_parent r)) eqn:Hcheck.
      * rewrite decide_False by done. rewrite bind_unfold. unfold eval_statement_pure at 1.
        cbn [mret M_ret]. rewrite !decide_True by done.
        rewrite filter_cons, decide_True by (cbn; rewrite Hcheck; done).
        cbn. by rewrite app_nil_r.
      * rewrite decide_True by done. cbn [mret M_ret].
        rewrite !decide_False by done. rewrite IH.
        rewrite filter_cons, decide_False by (cbn; rewrite Hcheck; naive_solver).
        done.
      * rewrite decide_False by done. rewrite bind_unfold. unfold eval_statement_pure at 1.
        cbn [mret M_ret]. rewrite !decide_False by done. rewrite IH.
        rewrite filter_cons, decide_True by (cbn; rewrite Hcheck; done).
        cbn. by rewrite app_assoc.
    + apply IH.
Qed.

Lemma session_eta s : Session (events s) (memoize_cache s) (execution_stack s) = s.
Proof. by destruct s. Qed.

Lemma listeners_loop_run (ls : list nat) (ps : list name) s :
  for_each ls () (λ _ listener, emit (ListenerExecute listener ps)) s =
    Ret () (log_events ((λ listener, ListenerExecute listener ps) <$> ls) s).
Proof.
  revert s. induction ls as [|l ls IH]; intros s.
  - cbn. by rewrite log_events_nil.
  - rewrite for_each_cons. cbn [emit]. fold (log_events [ListenerExecute l ps] s).
    by rewrite IH, log_events_app.
Qed.

(** The guarded method on a function without listeners, with an evaluator
    that does not come back into the module. *)
Lemma get_return_types_guarded_returns func var_args fn s :
  raw_function func = Some fn →
  listeners T fn = [] →
  (func, var_args) ∉ execution_stack s →
  get_return_types_guarded T E (eval_statement_pure E) (FunctionExecution func var_args) s =
    Ret (find_return_types E func
         ++ spec_return_types E (FunctionExecution func var_args) (returns T fn)) s.
Proof.
  intros Hfn Hlisteners Hstack.
  unfold get_return_types_guarded, execution_recursion_decorator.
  rewrite decide_False by done.
  unfold get_return_types_body. rewrite bind_unfold.
  unfold getattr_function. rewrite Hfn. cbn [mret M_ret].
  rewrite decide_False by (by intros Hsome). rewrite returns_loop_pure.
  cbn. by rewrite session_eta.
Qed.

(** The guarded method on a function with listeners, whatever the
    evaluator is. *)
Lemma get_return_types_guarded_listeners eval_stmt func var_args fn s :
  raw_function func = Some fn →
  listeners T fn ≠ [] →
  (func, var_args) ∉ execution_stack s →
  get_return_types_guarded T E eval_stmt (FunctionExecution func var_args) s =
    Ret [] (log_events ((λ listener, ListenerExecute listener (get_params E func var_args))
                          <$> listeners T fn) s).
Proof.
  intros Hfn Hlisteners Hstack.
  unfold get_return_types_guarded, execution_recursion_decorator.
  rewrite decide_False by done.
  unfold get_return_types_body. rewrite bind_unfold.
  unfold getattr_function. rewrite Hfn. cbn [mret M_ret].
  rewrite decide_True by done. rewrite bind_unfold, listeners_loop_run.
  cbn. unfold log_events. by destruct s.
Qed.

(** C2, as the code has it.  Take an execution that is not already in
    progress and that the table of [get_return_types] does not know.  When
    its function has no listeners, [get_return_types] returns the types of
    the docstring followed by the types of the return statements in source
    order, leaving out those that are unreachable and everything after the
    first return that is certain to execute, and stores the result; with a
    certain [return 1] followed by [return "x"] and no docstring type, the
    result is the types of [1].  When the function has listeners, each
    listener is executed once, in order, on the bound parameters, the
    result is empty and no statement is evaluated, whatever the returns
    are.  A second call on the same execution answers from the table. *)
Theorem get_return_types_reachable_returns
    (func : obj) (var_args : list obj) (fn : node) (s : session) :
  let execution := FunctionExecution func var_args in
  raw_function func = Some fn →
  (func, var_args) ∉ execution_stack s →
  memoize_cache s !! ("get_return_types", execution) = None →
  (listeners T fn = [] →
   get_return_types T E (eval_statement_pure E) execution s =
     Ret (find_return_types E func ++ spec_return_types E execution (returns T fn))
         (set_memo ("get_return_types", execution)
            (find_return_types E func ++ spec_return_types E execution (returns T fn)) s)
   ∧ (∀ one x parent_one parent_x,
        returns T fn = [KeywordStatement (Some one) parent_one;
                        KeywordStatement (Some x) parent_x] →
        break_check E execution parent_one = REACHABLE →
        find_return_types E func = [] →
        get_return_types T E (eval_statement_pure E) execution s =
          Ret (eval_statement E one)
              (set_memo ("get_return_types", execution) (eval_statement E one) s)))
  ∧ (listeners T fn ≠ [] →
     ∀ eval_stmt,
       get_return_types T E eval_stmt execution s =
         Ret [] (set_memo ("get_return_types", execution) []
                   (log_events ((λ listener,
                                   ListenerExecute listener (get_params E func var_args))
                                  <$> listeners T fn) s)))
  ∧ (∀ eval_stmt types s',
       get_return_types T E eval_stmt execution s = Ret types s' →
       ∀ eval_stmt', get_return_types T E eval_stmt' execution s' = Ret types s').
Proof.
  intros execution Hfn Hstack Hmiss. subst execution. split; [|split].
  - intros Hlisteners.
    assert (Hrun : get_return_types T E (eval_statement_pure E)
                     (FunctionExecution func var_args) s =
      Ret (find_return_types E func
           ++ spec_return_types E (FunctionExecution func var_args) (returns T fn))
          (set_memo ("get_return_types", FunctionExecution func var_args)
             (find_return_types E func
              ++ spec_return_types E (FunctionExecution func var_args) (returns T fn)) s)).
    { unfold get_return_types, memoize_default. rewrite Hmiss.
      rewrite (get_return_types_guarded_returns func var_args fn) by done.
      by rewrite set_memo_twice. }
    split; [done|].
    intros one x p1 px Hreturns Hcheck Hdoc. rewrite Hrun, Hreturns, Hdoc.
    unfold spec_return_types. cbn. rewrite Hcheck.
    rewrite decide_True by done. rewrite filter_cons, decide_True by (cbn; rewrite Hcheck; done).
    cbn. by rewrite app_nil_r.
  - intros Hlisteners eval_stmt. unfold get_return_types, memoize_default. rewrite Hmiss.
    rewrite (get_return_types_guarded_listeners eval_stmt func var_args fn) by done.
    by rewrite <- set_memo_log_events, set_memo_twice.
  - intros eval_stmt types s'. unfold get_return_types, memoize_default. rewrite Hmiss.
    destruct (get_return_types_guarded _ _ _ _ _) as [rv s2| |]; [|done..].
    intros [= <- <-] eval_stmt'. cbn. by rewrite lookup_insert_eq.
Qed.


(** ** get_self_attributes *)

Lemma scan_defined_names_run self self_name defined names_ s :
  Forall (λ n, names n ≠ []) defined →
  scan_defined_names self self_name defined names_ s =
    Ret (names_ ++ omap (rerooted self self_name) defined) s.
Proof.
  unfold scan_defined_names. intros Hwf. revert names_.
  induction Hwf as [|n defined Hn _ IH]; intros names_.
  - cbn. by rewrite app_nil_r.
  - rewrite for_each_cons. cbn [omap list_omap].
    destruct (names n) as [|first [|attr [|third rest]]] eqn:Hnames; [done|..].
    + assert (rerooted self self_name n = None) as -> by (unfold rerooted; by rewrite Hnames).
      rewrite decide_False by (by intros [_ [=]]). cbn [mret M_ret]. apply IH.
    + destruct (decide (first = self_name)) as [->|Hne].
      * assert (rerooted self self_name n =
                  Some (InstanceElement self (PrName (Name [attr] attr)) false)) as ->.
        { unfold rerooted. rewrite Hnames. by rewrite decide_True. }
        rewrite decide_True by done. unfold add_self_dot_name. rewrite Hnames.
        cbn [tail last mret M_ret get_instance_el]. rewrite IH. by rewrite <- app_assoc.
      * assert (rerooted self self_name n = None) as ->.
        { unfold rerooted. rewrite Hnames. by rewrite decide_False. }
        rewrite decide_False by (by intros [? ?]). cbn [mret M_ret]. apply IH.
    + assert (rerooted self self_name n = None) as -> by (unfold rerooted; by rewrite Hnames).
      rewrite decide_False by (by intros [_ [=]]). cbn [mret M_ret]. apply IH.
Qed.

Lemma scan_subscope_run base var_args names_ sub s :
  well_formed_class T E base →
  sub ∈ subscopes T base →
  scan_subscope T E (Instance (Class base) var_args) names_ sub s =
    Ret (names_ ++ method_names T E (Instance (Class base) var_args) sub) s.
Proof.
  intros (Hsubs & Hdefined & Hparams) Hin.
  rewrite Forall_forall in Hsubs. specialize (Hsubs sub Hin).
  destruct sub; try done.
  - cbn. by rewrite app_nil_r.
  - unfold scan_subscope, method_names. rewrite bind_unfold.
    unfold _get_func_self_name. rewrite bind_unfold. cbn [getattr_function raw_function mret M_ret].
    destruct (head (params T n)) as [self_name|]; [|cbn; by rewrite app_nil_r].
    destruct self_name as [|c self_name]; [cbn; by rewrite app_nil_r|].
    rewrite bind_unfold. unfold scanned_scope.
    destruct (decide (name_code T (PrFunction n) = "__init__")) as [Hinit|Hother].
    + rewrite bind_unfold. cbn [getattr_function raw_function mret M_ret].
      destruct (decide (decorators T n = [])) as [Hplain|Hdecorated].
      * rewrite decide_True by done.
        cbn [_get_method_execution mret M_ret get_instance_el].
        rewrite bind_unfold. cbn [call_get_defined_names defined_names_of mret M_ret].
        apply scan_defined_names_run. apply Forall_app. split; [apply Hparams|apply Hdefined].
      * rewrite decide_False by (by intros [? ?]). cbn [mret M_ret].
        rewrite bind_unfold. cbn [call_get_defined_names defined_names_of mret M_ret].
        apply scan_defined_names_run, Hdefined.
    + rewrite decide_False by (by intros [? ?]). cbn [mret M_ret].
      rewrite bind_unfold. cbn [call_get_defined_names defined_names_of mret M_ret].
      apply scan_defined_names_run, Hdefined.
Qed.

Lemma own_names_run base var_args s :
  well_formed_class T E base →
  for_each (subscopes T base) [] (scan_subscope T E (Instance (Class base) var_args)) s =
    Ret (own_names T E (Instance (Class base) var_args) base) s.
Proof.
  intros Hwf. unfold own_names.
  assert (Hloop : ∀ subs names_, subs ⊆ subscopes T base →
    for_each subs names_ (scan_subscope T E (Instance (Class base) var_args)) s =
      Ret (names_ ++ concat (map (method_names T E (Instance (Class base) var_args)) subs)) s).
  { induction subs as [|sub subs IH]; intros names_ Hsub.
    - cbn. by rewrite app_nil_r.
    - rewrite for_each_cons, scan_subscope_run by (done || set_solver).
      rewrite IH by set_solver. cbn [map concat]. by rewrite app_assoc. }
  by rewrite Hloop.
Qed.

Lemma for_each_extends {A B} (l : list A) (body : list B → A → M (list B)) :
  (∀ acc x s acc' s', body acc x s = Ret acc' s' → ∃ more, acc' = acc ++ more) →
  ∀ acc s acc' s', for_each l acc body s = Ret acc' s' → ∃ more, acc' = acc ++ more.
Proof.
  intros Hbody. induction l as [|x l IH]; intros acc s acc' s'.
  - cbn. intros [= <- <-]. exists []. by rewrite app_nil_r.
  - rewrite for_each_cons. destruct (body acc x s) as [acc1 s1| |] eqn:Hx; [|done..].
    intros Hrest. apply Hbody in Hx as [more1 ->]. apply IH in Hrest as [more2 ->].
    exists (more1 ++ more2). by rewrite app_assoc.
Qed.

Lemma inherited_attributes_extends rec bases names_ s names' s' :
  inherited_attributes E rec bases names_ s = Ret names' s' →
  ∃ inherited, names' = names_ ++ inherited.
Proof.
  unfold inherited_attributes. apply for_each_extends.
  clear. intros acc cls s acc' s'.
  destruct cls; try (intros [= <- <-]; exists []; by rewrite app_nil_r).
  all: apply for_each_extends; clear; intros acc inst s acc' s';
    rewrite bind_unfold; destruct (rec inst s) as [more s1| |]; [|done..];
    intros [= <- <-]; by exists more.
Qed.

Lemma inherited_attributes_compiled rec bases names_ s :
  Forall (λ cls, ∃ k, cls = CompiledObject k) bases →
  inherited_attributes E rec bases names_ s = Ret names_ s.
Proof.
  unfold inherited_attributes. intros Hall.
  induction Hall as [|cls bases [k ->] _ IH]; [done|].
  rewrite for_each_cons. cbn [mret M_ret]. apply IH.
Qed.

(** C9, as the code has it.  In [get_self_attributes] each function among
    the subscopes of the class whose first parameter has a name contributes
    the names [<first-param>.<attr>] that it defines, re-rooted onto the
    instance.  For [__init__] without decorators the names are those of its
    execution; an [__init__] with decorators is not executed, and the names
    of the function itself are scanned, as for any other method.  The names
    of the methods come first in the result, and are the whole result when
    every base that [py__bases__] answers is a compiled object. *)
Theorem get_self_attributes_own_methods
    (base : node) (var_args : list obj) (fuel : nat) (s : session) :
  let self := Instance (Class base) var_args in
  well_formed_class T E base →
  memoize_cache s !! ("get_self_attributes", self) = None →
  for_each (subscopes T base) [] (scan_subscope T E self)
     (set_memo ("get_self_attributes", self) [] s) =
    Ret (own_names T E self base) (set_memo ("get_self_attributes", self) [] s)
  ∧ (∀ names_ s', get_self_attributes T C E (S fuel) self s = Ret names_ s' →
       ∃ inherited, names_ = own_names T E self base ++ inherited)
  ∧ (Forall (λ cls, ∃ k, cls = CompiledObject k) (bases_answer T E s base) →
       get_self_attributes T C E (S fuel) self s =
         Ret (own_names T E self base)
             (set_memo ("get_self_attributes", self) (own_names T E self base)
                (after_py__bases__ T E base
                   (set_memo ("get_self_attributes", self) [] s)))).
Proof.
  intros self Hwf Hmiss. subst self. split; [by apply own_names_run|].
  cbn [get_self_attributes]. unfold memoize_default. rewrite Hmiss.
  rewrite bind_unfold. cbn [getattr_subscopes mret M_ret].
  rewrite bind_unfold, own_names_run by done.
  rewrite bind_unfold. cbn [call_py__bases__]. rewrite py__bases___run.
  split.
  - intros names_ s'.
    destruct (inherited_attributes _ _ _ _ _) as [acc s1| |] eqn:Hloop; [|done..].
    intros [= <- <-]. by eapply inherited_attributes_extends.
  - intros Hcompiled.
    assert (Hsame : bases_answer T E
                      (set_memo ("get_self_attributes", Instance (Class base) var_args) [] s)
                      base = bases_answer T E s base).
    { unfold bases_answer. by rewrite bases_cached_set_memo_ne. }
    rewrite Hsame. by rewrite inherited_attributes_compiled.
Qed.


(** ** py__mro__ *)

Lemma add_extends mro cls : ∃ more, add mro cls = mro ++ more.
Proof.
  unfold add. destruct (decide _); [exists []; by rewrite app_nil_r|by eexists].
Qed.

Lemma add_NoDup mro cls : NoDup mro → NoDup (add mro cls).
Proof.
  intros Hnd. unfold add. destruct (decide _) as [|Hnotin]; [done|].
  apply NoDup_app. split; [done|]. split; [|apply NoDup_singleton].
  intros x Hx ->%list_elem_of_singleton. done.
Qed.

Lemma add_elem mro cls : cls ∈ add mro cls.
Proof. unfold add. destruct (decide _); [done|]. set_solver. Qed.

Lemma foldl_add_extends l mro : ∃ more, foldl add mro l = mro ++ more.
Proof.
  revert mro. induction l as [|x l IH]; intros mro.
  - exists []. by rewrite app_nil_r.
  - cbn. destruct (add_extends mro x) as [m1 ->]. destruct (IH (mro ++ m1)) as [m2 ->].
    exists (m1 ++ m2). by rewrite app_assoc.
Qed.

Lemma foldl_add_NoDup l mro : NoDup mro → NoDup (foldl add mro l).
Proof.
  revert mro. induction l as [|x l IH]; intros mro Hnd; [done|].
  cbn. by apply IH, add_NoDup.
Qed.

Lemma stable_refl s : stable s s.
Proof. by intros k x. Qed.

Lemma stable_trans s1 s2 s3 : stable s1 s2 → stable s2 s3 → stable s1 s3.
Proof. intros H12 H23 k x Hk. by apply H23, H12. Qed.

Lemma mro_step_run rec mro cls s :
  mro_step rec mro cls s =
    match rec cls s with
    | Ret mro_new s' => Ret (foldl add (add mro cls) mro_new) s'
    | Raise e s' => Raise e s'
    | OutOfFuel => OutOfFuel
    end.
Proof. unfold mro_step. rewrite bind_unfold. by destruct (rec cls s). Qed.

(** The loop keeps what it has, without duplicates, and adds every base. *)
Lemma mro_loop_shape rec bases acc s mro s' :
  for_each bases acc (mro_step rec) s = Ret mro s' →
  (∃ more, mro = acc ++ more) ∧ (NoDup acc → NoDup mro) ∧ (∀ cls, cls ∈ bases → cls ∈ mro).
Proof.
  revert acc s. induction bases as [|cls bases IH]; intros acc s.
  - cbn. intros [= <- <-]. split; [exists []; by rewrite app_nil_r|]. split; [done|].
    intros cls Hin. by apply elem_of_nil in Hin.
  - rewrite for_each_cons, mro_step_run.
    destruct (rec cls s) as [mro_new s1| |]; [|done..].
    intros Hrest. apply IH in Hrest as ([more ->] & Hnd & Hin).
    destruct (add_extends acc cls) as [m1 Hm1].
    destruct (foldl_add_extends mro_new (add acc cls)) as [m2 Hm2].
    split; [|split].
    + exists (m1 ++ m2 ++ more). rewrite Hm2, Hm1. by rewrite <- !app_assoc.
    + intros Hacc. by apply Hnd, foldl_add_NoDup, add_NoDup.
    + intros c [->|Hc]%elem_of_cons; [|by apply Hin].
      apply elem_of_app. left. rewrite Hm2. apply elem_of_app. left. apply add_elem.
Qed.

Lemma mro_loop_invariant (I : session → Prop) rec bases :
  (∀ cls s v s', cls ∈ bases → I s → rec cls s = Ret v s' → I s') →
  ∀ acc s mro s', I s → for_each bases acc (mro_step rec) s = Ret mro s' → I s'.
Proof.
  induction bases as [|cls bases IH]; intros Hrec acc s mro s' Hs.
  - cbn. by intros [= _ <-].
  - rewrite for_each_cons, mro_step_run.
    destruct (rec cls s) as [v s1| |] eqn:Hcall; [|done..].
    apply IH.
    + intros c s0 v0 s0' Hc. apply Hrec. by right.
    + eapply Hrec; [by left|exact Hs|exact Hcall].
Qed.

Lemma mro_cached_set_memo_eq base v s :
  mro_cached (set_memo ("py__mro__", Class base) v s) base = Some v.
Proof. unfold mro_cached. cbn. by rewrite lookup_insert_eq. Qed.

Lemma mro_cached_set_memo_ne base b v s :
  b ≠ base → mro_cached (set_memo ("py__mro__", Class base) v s) b = mro_cached s b.
Proof. intros Hne. unfold mro_cached. cbn. rewrite lookup_insert_ne; [done|]. by intros [= ->]. Qed.

Lemma mro_cached_after_py__bases__ base b s :
  mro_cached (after_py__bases__ T E base s) b = mro_cached s b.
Proof. unfold mro_cached. by apply after_py__bases___cache. Qed.

Lemma bases_table_ok_set_memo_mro base v s :
  bases_table_ok T E s → bases_table_ok T E (set_memo ("py__mro__", Class base) v s).
Proof.
  intros Hok b bases. rewrite bases_cached_set_memo_ne by done. apply Hok.
Qed.

Lemma py__mro___unfold fuel base s :
  py__mro__ T C E (S fuel) (Class base) s =
    match mro_cached s base with
    | Some rv => Ret rv s
    | None =>
        match for_each (bases_answer T E s base) [Class base] (mro_step (py__mro__ T C E fuel))
                (after_py__bases__ T E base (set_memo ("py__mro__", Class base) [] s)) with
        | Ret rv s2 => Ret rv (set_memo ("py__mro__", Class base) rv s2)
        | r => r
        end
    end.
Proof.
  cbn [py__mro__]. unfold memoize_default, mro_cached.
  destruct (memoize_cache s !! _); [done|].
  rewrite bind_unfold, py__bases___run.
  unfold bases_answer. by rewrite bases_cached_set_memo_ne.
Qed.

(** A call keeps the entries of the table and leaves its result there. *)
Lemma py__mro___stable fuel : ∀ self s mro s',
  py__mro__ T C E fuel self s = Ret mro s' →
  stable s s' ∧ (∀ b, self = Class b → mro_cached s' b = Some mro).
Proof.
  induction fuel as [|fuel IH]; intros self s mro s'.
  - destruct self; try done. cbn. intros [= <- <-]. split; [apply stable_refl|done].
  - destruct self as [| | | | | | |k| |base| | | | |]; try done.
    + cbn. intros [= <- <-]. split; [apply stable_refl|done].
    + rewrite py__mro___unfold. destruct (mro_cached s base) as [rv|] eqn:Hc.
      * intros [= <- <-]. split; [apply stable_refl|]. by intros b [= <-].
      * destruct (for_each _ _ _ _) as [rv s2| |] eqn:Hloop; [|done..].
        intros [= <- <-]. split.
        -- assert (Hstable : stable (after_py__bases__ T E base
                                       (set_memo ("py__mro__", Class base) [] s)) s2).
           { eapply (mro_loop_invariant (stable _)); [|apply stable_refl|exact Hloop].
             intros cls s0 v s0' _ Hs0 Hcall. apply IH in Hcall as [Hst _].
             by eapply stable_trans. }
           unfold mro_cached in Hc.
           intros k x Hk. cbn. rewrite lookup_insert_ne by (intros <-; congruence).
           apply Hstable, after_py__bases___keeps. cbn.
           rewrite lookup_insert_ne by (intros <-; congruence). done.
        -- intros b [= <-]. unfold mro_cached. cbn. by rewrite lookup_insert_eq.
Qed.

(** A call leaves the table of [py__bases__] in order. *)
Lemma py__mro___bases_table_ok fuel : ∀ self s mro s',
  py__mro__ T C E fuel self s = Ret mro s' →
  bases_table_ok T E s → bases_table_ok T E s'.
Proof.
  induction fuel as [|fuel IH]; intros self s mro s'.
  - destruct self; try done. cbn. by intros [= _ <-].
  - destruct self as [| | | | | | |k| |base| | | | |]; try done.
    + cbn. by intros [= _ <-].
    + rewrite py__mro___unfold. destruct (mro_cached s base) as [rv|] eqn:Hc.
      * by intros [= _ <-].
      * destruct (for_each _ _ _ _) as [rv s2| |] eqn:Hloop; [|done..].
        intros [= <- <-] Hok. apply bases_table_ok_set_memo_mro.
        eapply (mro_loop_invariant (bases_table_ok T E)); [| |exact Hloop].
        -- intros cls s0 v s0' _ Hs0 Hcall. by eapply IH.
        -- by apply after_py__bases___ok, bases_table_ok_set_memo_mro.
Qed.

(** A call keeps the table in order, and the order it computes is one. *)
Lemma py__mro___table_ok fuel : ∀ self s mro s' (F : node → Prop),
  py__mro__ T C E fuel self s = Ret mro s' →
  bases_table_ok T E s →
  mro_table_ok T E F s →
  mro_table_ok T E F s' ∧ (∀ b, self = Class b → mro_cached s b = None → mro_ok T E b mro).
Proof.
  induction fuel as [|fuel IH]; intros self s mro s' F.
  - destruct self; try done. cbn. by intros [= <- <-].
  - destruct self as [| | | | | | |k| |base| | | | |]; try done.
    + cbn. by intros [= <- <-].
    + rewrite py__mro___unfold. destruct (mro_cached s base) as [rv|] eqn:Hc.
      * intros [= <- <-] Hbases Hok. split; [done|]. intros b [= <-]. congruence.
      * intros Hrun Hbases. rewrite bases_answer_ok in Hrun by done. revert Hrun.
        destruct (for_each _ _ _ _) as [rv s2| |] eqn:Hloop; [|done..].
        intros [= <- <-] Hok.
        assert (Hshape : mro_ok T E base rv).
        { apply mro_loop_shape in Hloop as ([more ->] & Hnd & Hin).
          split; [done|]. split; [|done]. apply Hnd, NoDup_singleton. }
        split; [|by intros b [= <-]].
        set (s1 := after_py__bases__ T E base (set_memo ("py__mro__", Class base) [] s)) in *.
        assert (Hstart : mro_table_ok T E (λ b, b = base ∨ F b) s1).
        { intros b v. unfold s1. rewrite mro_cached_after_py__bases__.
          destruct (decide (b = base)) as [->|Hne].
          - rewrite mro_cached_set_memo_eq. intros [= <-]. left. by split; [|left].
          - rewrite mro_cached_set_memo_ne by done. intros Hb.
            apply Hok in Hb as [[-> HF]|Hb]; [left|right]; [|done]. by split; [|right]. }
        assert (Hstart' : bases_table_ok T E s1).
        { by apply after_py__bases___ok, bases_table_ok_set_memo_mro. }
        assert (Hloop_ok : bases_table_ok T E s2 ∧ mro_table_ok T E (λ b, b = base ∨ F b) s2).
        { eapply (mro_loop_invariant
                    (λ s0, bases_table_ok T E s0 ∧ mro_table_ok T E (λ b, b = base ∨ F b) s0));
            [|split; [exact Hstart'|exact Hstart]|exact Hloop].
          intros cls s0 v s0' _ [Hb0 Hm0] Hcall. split.
          - by eapply py__mro___bases_table_ok.
          - by eapply IH. }
        destruct Hloop_ok as [_ Hloop_ok].
        intros b v. destruct (decide (b = base)) as [->|Hne].
        -- rewrite mro_cached_set_memo_eq. intros [= <-]. by right.
        -- rewrite mro_cached_set_memo_ne by done. intros Hb.
           apply Hloop_ok in Hb as [[-> [?|HF]]|Hb]; [done|left|right]; done.
Qed.

(** A call that computes the order follows the linearization of the
    specification. *)
Lemma py__mro___linearization fuel base s mro s' :
  bases_table_ok T E s →
  py__mro__ T C E (S fuel) (Class base) s = Ret mro s' →
  mro_cached s base = None →
  mro = spec_linearization (Class base) (spec_bases T E base) (mro_of C base s').
Proof.
  intros Hbases. rewrite py__mro___unfold, bases_answer_ok by done.
  intros Hrun Hmiss. rewrite Hmiss in Hrun.
  destruct (for_each _ _ _ _) as [rv s2| |] eqn:Hloop; [|done..].
  injection Hrun as <- <-.
  assert (Hplace : mro_cached (after_py__bases__ T E base
                                 (set_memo ("py__mro__", Class base) [] s)) base = Some []).
  { rewrite mro_cached_after_py__bases__. apply mro_cached_set_memo_eq. }
  unfold spec_linearization. revert Hloop Hplace.
  generalize (after_py__bases__ T E base (set_memo ("py__mro__", Class base) [] s)).
  generalize [Class base].
  induction (spec_bases T E base) as [|cls bases IHb]; intros acc s0.
  - cbn. by intros [= <- <-].
  - rewrite for_each_cons, mro_step_run.
    destruct (py__mro__ T C E fuel cls s0) as [v s1| |] eqn:Hcall; [|done..].
    intros Hrest Hplace. cbn [foldl].
    pose proof (py__mro___stable _ _ _ _ _ Hcall) as [Hst01 Hpost].
    assert (Hplace1 : mro_cached s1 base = Some []) by (by apply Hst01).
    assert (Hst12 : stable s1 s2).
    { eapply (mro_loop_invariant (stable s1)); [|apply stable_refl|exact Hrest].
      intros c s3 v3 s3' _ Hs3 Hc. apply py__mro___stable in Hc as [Hst _].
      by eapply stable_trans. }
    assert (v = mro_of C base (set_memo ("py__mro__", Class base) rv s2) cls) as <-.
    { destruct cls as [| | | | | | |k| |b| | | | |];
        try (by destruct fuel; cbn in Hcall).
      - destruct fuel; cbn in Hcall; by injection Hcall as <- <-.
      - unfold mro_of. destruct (decide (b = base)) as [->|Hne].
        + specialize (Hpost base eq_refl). congruence.
        + rewrite mro_cached_set_memo_ne by done.
          specialize (Hpost b eq_refl). apply Hst12 in Hpost.
          fold (mro_cached s2 b) in Hpost. by rewrite Hpost. }
    eapply IHb; [exact Hrest|exact Hplace1].
Qed.


(** *** Termination *)

Lemma pending_le U s s' : stable s s' → pending U s' ≤ pending U s.
Proof.
  intros Hst. unfold pending. induction U as [|b U IH]; [done|].
  rewrite !filter_cons. destruct (decide (mro_cached s' b = None)) as [Hn'|Hs'].
  - destruct (decide (mro_cached s b = None)) as [Hn|Hs]; [cbn; lia|].
    destruct (mro_cached s b) as [x|] eqn:Hb; [|done].
    apply Hst in Hb. unfold mro_cached in Hn'. congruence.
  - destruct (decide (mro_cached s b = None)); cbn; lia.
Qed.

Lemma pending_lt U s s' b :
  stable s s' → b ∈ U → mro_cached s b = None → mro_cached s' b ≠ None →
  pending U s' < pending U s.
Proof.
  intros Hst Hin Hn Hs'. unfold pending. induction U as [|b' U IH]; [by apply elem_of_nil in Hin|].
  rewrite !filter_cons. apply elem_of_cons in Hin as [<-|Hin].
  - rewrite decide_False, decide_True by done. cbn.
    pose proof (pending_le U s s' Hst) as Hle. unfold pending in Hle. lia.
  - specialize (IH Hin). destruct (decide (mro_cached s' b' = None)) as [Hn'|Hs''].
    + destruct (decide (mro_cached s b' = None)) as [Hnb|Hsb]; [cbn; lia|].
      destruct (mro_cached s b') as [x|] eqn:Hb; [|done].
      apply Hst in Hb. unfold mro_cached in Hn'. congruence.
    + destruct (decide (mro_cached s b' = None)); cbn; lia.
Qed.

Lemma pending_bound U s : pending U s ≤ length U.
Proof. unfold pending. apply length_filter. Qed.

(** With fuel for the classes that are still to be computed, a call
    returns. *)
Lemma py__mro___returns U fuel : ∀ self s,
  closed_hierarchy T E U →
  bases_table_ok T E s →
  is_class_or_compiled self →
  (∀ b, self = Class b → b ∈ U) →
  pending U s < fuel →
  ∃ mro s', py__mro__ T C E fuel self s = Ret mro s'.
Proof.
  intros self s Hclosed. revert self s.
  induction fuel as [|fuel IH]; intros self s Hbases Hkind HU Hfuel; [lia|].
  destruct self as [| | | | | | |k| |base| | | | |]; try done.
  - by eexists _, _.
  - rewrite py__mro___unfold, bases_answer_ok by done.
    destruct (mro_cached s base) as [rv|] eqn:Hc; [by eexists _, _|].
    set (s1 := after_py__bases__ T E base (set_memo ("py__mro__", Class base) [] s)).
    assert (Hs1 : pending U s1 < fuel).
    { assert (pending U s1 < pending U s); [|lia].
      apply (pending_lt U s s1 base).
      - intros k x Hk. apply after_py__bases___keeps. cbn.
        rewrite lookup_insert_ne; [done|]. intros <-.
        unfold mro_cached in Hc. congruence.
      - by apply HU.
      - done.
      - unfold s1. by rewrite mro_cached_after_py__bases__, mro_cached_set_memo_eq. }
    assert (Hs1' : bases_table_ok T E s1).
    { by apply after_py__bases___ok, bases_table_ok_set_memo_mro. }
    assert (Hloop : ∀ bases acc s0,
      (∀ cls, cls ∈ bases → cls ∈ spec_bases T E base) →
      bases_table_ok T E s0 →
      pending U s0 < fuel →
      ∃ mro s3, for_each bases acc (mro_step (py__mro__ T C E fuel)) s0 = Ret mro s3).
    { clear Hs1 Hs1'. induction bases as [|cls bases IHb]; intros acc s0 Hsub Hb0 Hs0.
      - by eexists _, _.
      - rewrite for_each_cons, mro_step_run.
        assert (Hcls : cls ∈ spec_bases T E base) by (apply Hsub; by left).
        destruct (IH cls s0) as (v & s' & Hcall); [done|..|done|].
        + pose proof (spec_bases_classes base) as Hall.
          rewrite Forall_forall in Hall. by apply Hall.
        + intros c ->. eapply Hclosed; [|exact Hcls]. by apply HU.
        + rewrite Hcall. apply IHb.
          * intros c Hc'. apply Hsub. by right.
          * by eapply py__mro___bases_table_ok.
          * apply py__mro___stable in Hcall as [Hst _].
            pose proof (pending_le U s0 s' Hst). lia. }
    destruct (Hloop (spec_bases T E base) [Class base] s1) as (mro & s3 & ->); [done..|].
    by eexists _, _.
Qed.

Lemma mro_table_ok_settled s :
  mro_table_ok T E (λ _, False) s ↔ ∀ b mro, mro_cached s b = Some mro → mro_ok T E b mro.
Proof.
  split.
  - intros Hok b mro Hb. by apply Hok in Hb as [[_ []]|Hb].
  - intros Hok b mro Hb. right. by apply Hok.
Qed.

(** *** Hierarchies without cycles *)

Lemma spec_linearization_ext self bases f g :
  (∀ cls, cls ∈ bases → f cls = g cls) →
  spec_linearization self bases f = spec_linearization self bases g.
Proof.
  unfold spec_linearization. generalize [self].
  induction bases as [|cls bases IH]; intros acc Hext; [done|].
  cbn. rewrite (Hext cls) by (by left). apply IH. intros c Hc. apply Hext. by right.
Qed.

Lemma pure_mro_depth rank :
  acyclic T E rank →
  ∀ depth b, rank b < depth →
    pure_mro T C E depth (Class b) = pure_mro T C E (S (rank b)) (Class b).
Proof.
  intros Hacyclic depth. induction depth as [depth IH] using lt_wf_ind.
  intros b Hb. destruct depth as [|depth]; [lia|].
  cbn [pure_mro]. apply spec_linearization_ext. intros cls Hcls.
  destruct cls as [| | | | | | |k| |c| | | | |];
    try (by destruct depth; destruct (rank b)).
  assert (rank c < rank b) by (by apply Hacyclic).
  rewrite (IH depth) by lia. rewrite (IH (rank b)) by lia. done.
Qed.

(** In a hierarchy without cycles the order of a class does not depend on
    what the session has computed before. *)
Lemma py__mro___acyclic rank fuel : ∀ base s,
  acyclic T E rank →
  rank base < fuel →
  bases_table_ok T E s →
  exact_below T C E rank (S (rank base)) s →
  ∃ s', py__mro__ T C E fuel (Class base) s
          = Ret (pure_mro T C E (S (rank base)) (Class base)) s'
        ∧ bases_table_ok T E s'
        ∧ (∀ b mro, mro_cached s' b = Some mro →
             mro_cached s b = Some mro ∨ mro = pure_mro T C E (S (rank b)) (Class b)).
Proof.
  induction fuel as [|fuel IH]; intros base s Hacyclic Hfuel Hbases Hexact; [lia|].
  rewrite py__mro___unfold, bases_answer_ok by done.
  destruct (mro_cached s base) as [rv|] eqn:Hc.
  { exists s. split; [|split; [done|by left]]. f_equal. apply Hexact; [lia|done]. }
  set (s1 := after_py__bases__ T E base (set_memo ("py__mro__", Class base) [] s)).
  assert (Hs1 : bases_table_ok T E s1).
  { by apply after_py__bases___ok, bases_table_ok_set_memo_mro. }
  assert (Hloop : ∀ bases acc s0,
    (∀ cls, cls ∈ bases → cls ∈ spec_bases T E base) →
    bases_table_ok T E s0 →
    (∀ b mro, mro_cached s0 b = Some mro →
       mro_cached s1 b = Some mro ∨ mro = pure_mro T C E (S (rank b)) (Class b)) →
    ∃ s3, for_each bases acc (mro_step (py__mro__ T C E fuel)) s0
            = Ret (foldl (λ mro cls, foldl add (add mro cls) (pure_mro T C E (rank base) cls))
                     acc bases) s3
          ∧ bases_table_ok T E s3
          ∧ (∀ b mro, mro_cached s3 b = Some mro →
               mro_cached s1 b = Some mro ∨ mro = pure_mro T C E (S (rank b)) (Class b))).
  { induction bases as [|cls bases IHb]; intros acc s0 Hsub Hb0 Hs0.
    - exists s0. by split.
    - rewrite for_each_cons, mro_step_run.
      assert (Hcls : cls ∈ spec_bases T E base) by (apply Hsub; by left).
      assert (Hkind : is_class_or_compiled cls).
      { pose proof (spec_bases_classes base) as Hall.
        rewrite Forall_forall in Hall. by apply Hall. }
      assert (Hcall : ∃ s', py__mro__ T C E fuel cls s0
                              = Ret (pure_mro T C E (rank base) cls) s'
                ∧ bases_table_ok T E s'
                ∧ (∀ b mro, mro_cached s' b = Some mro →
                     mro_cached s1 b = Some mro
                     ∨ mro = pure_mro T C E (S (rank b)) (Class b))).
      { destruct cls as [| | | | | | |k| |c| | | | |]; try done.
        - exists s0. split; [|done]. by destruct fuel, (rank base).
        - assert (Hrank : rank c < rank base) by (by apply Hacyclic).
          destruct (IH c s0) as (s' & Hrun & Hb' & Hs'); [done|lia|done| |].
          + intros b mro Hb Hcached. apply Hs0 in Hcached as [Hold|Hnew]; [|done].
            unfold s1 in Hold. rewrite mro_cached_after_py__bases__ in Hold.
            rewrite mro_cached_set_memo_ne in Hold by (intros ->; lia).
            apply Hexact; [lia|done].
          + exists s'. split; [|split; [done|]].
            * rewrite Hrun. f_equal. symmetry. by apply pure_mro_depth.
            * intros b mro Hb. apply Hs' in Hb as [Hb|Hb]; [by apply Hs0|by right]. }
      destruct Hcall as (s' & -> & Hb' & Hs').
      destruct (IHb (foldl add (add acc cls) (pure_mro T C E (rank base) cls)) s')
        as (s3 & -> & Hb3 & Hs3); [|done|done|].
      + intros c Hc'. apply Hsub. by right.
      + by exists s3. }
  destruct (Hloop (spec_bases T E base) [Class base] s1) as (s3 & -> & Hb3 & Hs3);
    [done|done|by left|].
  eexists. split; [done|]. split; [by apply bases_table_ok_set_memo_mro|].
  intros b mro. destruct (decide (b = base)) as [->|Hne].
  - rewrite mro_cached_set_memo_eq. intros [= <-]. by right.
  - rewrite mro_cached_set_memo_ne by done. intros Hb.
    apply Hs3 in Hb as [Hb|Hb]; [|by right].
    unfold s1 in Hb. rewrite mro_cached_after_py__bases__ in Hb.
    rewrite mro_cached_set_memo_ne in Hb by done. by left.
Qed.


(** ** The recursion guard *)

Section Recursion.

Context (program : node → expr).

Lemma waiting_bound U stack : waiting U stack ≤ length U.
Proof. apply length_filter. Qed.

Lemma waiting_push U stack k :
  k ∈ U → k ∉ stack → waiting U (k :: stack) < waiting U stack.
Proof.
  intros Hin Hout. unfold waiting. induction U as [|k' U IH]; [by apply elem_of_nil in Hin|].
  assert (Hle : length (filter (λ k0, k0 ∉ k :: stack) U) ≤ length (filter (λ k0, k0 ∉ stack) U)).
  { clear. induction U as [|x U IHU]; [done|]. rewrite !filter_cons.
    destruct (decide (x ∉ k :: stack)) as [Hx|Hx].
    - rewrite decide_True by (intros ?; apply Hx; by right). cbn. lia.
    - destruct (decide (x ∉ stack)); cbn; lia. }
  rewrite !filter_cons. apply elem_of_cons in Hin as [<-|Hin].
  - rewrite decide_False by (intros Hk; apply Hk; by left).
    rewrite decide_True by done. cbn. lia.
  - specialize (IH Hin). destruct (decide (k' ∉ k :: stack)) as [Hx|Hx].
    + rewrite decide_True by (intros ?; apply Hx; by right). cbn. lia.
    + destruct (decide (k' ∉ stack)); cbn; lia.
Qed.

(** An execution that is in progress answers the empty list at once. *)
Lemma get_return_types_reentrant eval_stmt func var_args s :
  (func, var_args) ∈ execution_stack s →
  get_return_types_guarded T E eval_stmt (FunctionExecution func var_args) s = Ret [] s.
Proof.
  intros Hin. unfold get_return_types_guarded, execution_recursion_decorator.
  by rewrite decide_True.
Qed.

Lemma returns_loop_returns eval_stmt self rs stack : ∀ types s,
  (∀ r stmt s0, r ∈ rs → return_stmt r = Some stmt → execution_stack s0 = stack →
     ∃ found s1, eval_stmt stmt s0 = Ret found s1 ∧ execution_stack s1 = stack) →
  execution_stack s = stack →
  ∃ types' s', returns_loop E eval_stmt self rs types s = Ret types' s'
               ∧ execution_stack s' = stack.
Proof.
  induction rs as [|r rs IH]; intros types s Heval Hs.
  - by eexists _, _.
  - assert (Hrest : ∀ r stmt s0, r ∈ rs → return_stmt r = Some stmt →
              execution_stack s0 = stack →
              ∃ found s1, eval_stmt stmt s0 = Ret found s1 ∧ execution_stack s1 = stack).
    { intros r' stmt s0 Hr'. apply Heval. by right. }
    cbn [returns_loop]. destruct (return_stmt r) as [stmt|] eqn:Hstmt; [|by apply IH].
    rewrite bind_unfold. destruct (decide (break_check E self (return_parent r) = UNREACHABLE)).
    + cbn [mret M_ret]. destruct (decide _); [by eexists _, _|by apply IH].
    + rewrite bind_unfold.
      destruct (Heval r stmt s) as (found & s1 & -> & Hs1); [by left|done|done|].
      cbn [mret M_ret]. destruct (decide _); [by eexists _, _|by apply IH].
Qed.

Lemma listeners_loop_returns (ls : list nat) (ps : list name) s :
  ∃ s', for_each ls () (λ _ listener, emit (ListenerExecute listener ps)) s = Ret () s'
        ∧ execution_stack s' = execution_stack s.
Proof.
  revert s. induction ls as [|l ls IH]; intros s; [by eexists|].
  rewrite for_each_cons. cbn [emit]. destruct (IH (Session (events s ++ [ListenerExecute l ps])
                                       (memoize_cache s) (execution_stack s))) as (s' & -> & Hs').
  by eexists.
Qed.

(** A call of a function of [U] returns when the statements of its returns
    do. *)
Lemma Function_py__call___returns U eval_stmt f a s :
  closed_program T program U →
  (f, a) ∈ U →
  (∀ stmt s0, (∀ g b, program stmt = Call g b → (g, b) ∈ U) →
     waiting U (execution_stack s0) < waiting U (execution_stack s) →
     ∃ found s1, eval_stmt stmt s0 = Ret found s1 ∧ execution_stack s1 = execution_stack s0) →
  ∃ types s', Function_py__call__ T E eval_stmt f a s = Ret types s'
              ∧ execution_stack s' = execution_stack s.
Proof.
  intros [Hfuncs Hcalls] Hin Heval.
  destruct (Hfuncs f a Hin) as [fn Hfn].
  unfold Function_py__call__. rewrite bind_unfold.
  unfold getattr_function. rewrite Hfn. cbn [mret M_ret].
  destruct (is_generator T fn); [by eexists _, _|].
  unfold get_return_types_guarded, execution_recursion_decorator.
  destruct (decide ((f, a) ∈ execution_stack s)) as [Hre|Hnew]; [by eexists _, _|].
  unfold get_return_types_body. rewrite bind_unfold.
  unfold getattr_function. rewrite Hfn. cbn [mret M_ret].
  set (s1 := Session (events s) (memoize_cache s) ((f, a) :: execution_stack s)).
  destruct (decide (listeners T fn ≠ [])) as [Hsome|Hnone].
  - rewrite bind_unfold.
    destruct (listeners_loop_returns (listeners T fn) (get_params E f a) s1) as (s2 & -> & Hs2).
    cbn [mret M_ret]. eexists _, _. split; [done|]. cbn. by rewrite Hs2.
  - destruct (returns_loop_returns eval_stmt (FunctionExecution f a) (returns T fn)
                ((f, a) :: execution_stack s) (find_return_types E f) s1)
      as (types & s2 & -> & Hs2); [|done|].
    + intros r stmt s0 Hr Hstmt Hs0.
      destruct (Heval stmt s0) as (found & s3 & -> & Hs3).
      * intros g b Hprog. by eapply Hcalls.
      * rewrite Hs0. by apply waiting_push.
      * eexists _, _. split; [done|]. congruence.
    + eexists _, _. split; [done|]. cbn. by rewrite Hs2.
Qed.

Lemma eval_statement_rec_returns U fuel : ∀ stmt s,
  closed_program T program U →
  (∀ g b, program stmt = Call g b → (g, b) ∈ U) →
  waiting U (execution_stack s) < fuel →
  ∃ found s', eval_statement_rec T E program fuel stmt s = Ret found s'
              ∧ execution_stack s' = execution_stack s.
Proof.
  induction fuel as [|fuel IH]; intros stmt s Hclosed Hstmt Hfuel; [lia|].
  cbn [eval_statement_rec]. destruct (program stmt) as [types|g b] eqn:Hprog.
  - by eexists _, _.
  - apply (Function_py__call___returns U); [done|by apply Hstmt|].
    intros stmt' s0 Hstmt' Hless. apply IH; [done|done|lia].
Qed.

(** A function whose only return calls the function itself on the same
    arguments has no return type. *)
Lemma direct_recursion_empty f a fn stmt parent fuel s :
  raw_function f = Some fn →
  is_generator T fn = false →
  listeners T fn = [] →
  returns T fn = [KeywordStatement (Some stmt) parent] →
  program stmt = Call f a →
  find_return_types E f = [] →
  (f, a) ∉ execution_stack s →
  Function_py__call__ T E (eval_statement_rec T E program (S fuel)) f a s = Ret [] s.
Proof.
  intros Hfn Hgen Hlisteners Hreturns Hprog Hdoc Hnew.
  unfold Function_py__call__. rewrite bind_unfold.
  unfold getattr_function. rewrite Hfn. cbn [mret M_ret]. rewrite Hgen.
  unfold get_return_types_guarded, execution_recursion_decorator.
  rewrite decide_False by done.
  unfold get_return_types_body. rewrite bind_unfold.
  unfold getattr_function. rewrite Hfn. cbn [mret M_ret].
  rewrite decide_False by (by intros Hsome). rewrite Hreturns, Hdoc.
  cbn [returns_loop return_stmt return_parent]. rewrite bind_unfold.
  assert (Hinner : ∀ s0, (f, a) ∈ execution_stack s0 →
            eval_statement_rec T E program (S fuel) stmt s0 = Ret [] s0).
  { intros s0 Hin. cbn [eval_statement_rec]. rewrite Hprog.
    unfold Function_py__call__. rewrite bind_unfold.
    unfold getattr_function. rewrite Hfn. cbn [mret M_ret]. rewrite Hgen.
    by apply get_return_types_reentrant. }
  destruct (decide (break_check E (FunctionExecution f a) parent = UNREACHABLE)) as [Hun|Hre].
  - cbn [mret M_ret]. rewrite decide_False by congruence. cbn. by rewrite session_eta.
  - rewrite bind_unfold, Hinner by (by left). cbn [mret M_ret app].
    destruct (decide _); cbn; by rewrite session_eta.
Qed.


End Recursion.

End Properties.

(** ** The wrapper factory *)

Section WrapperCacheProperties.

Import WrapperCache.

Lemma construct_hit call a st :
  cache st !! call = Some a → construct call st = (Wrapped a, st).
Proof. intros H. unfold construct. by rewrite H. Qed.

Lemma construct_cached call st :
  ∃ a, (construct call st).1 = Wrapped a ∧ cache (construct call st).2 !! call = Some a.
Proof.
  unfold construct. destruct (cache st !! call) as [a|] eqn:Hc.
  - by exists a.
  - eexists. split; [done|]. cbn. by rewrite lookup_insert_eq.
Qed.

Lemma construct_keeps call st k a :
  cache st !! k = Some a → cache (construct call st).2 !! k = Some a.
Proof.
  intros Hk. unfold construct. destruct (cache st !! call) as [a'|] eqn:Hc; [done|].
  cbn. rewrite lookup_insert_ne; [done|]. intros ->. congruence.
Qed.

Lemma construct_ok call st : store_ok st → store_ok (construct call st).2.
Proof.
  intros Hok. unfold construct. destruct (cache st !! call) as [a'|] eqn:Hc; [done|].
  intros k a. cbn. destruct (decide (call = k)) as [->|Hne].
  - rewrite lookup_insert_eq. intros [= <-]. by rewrite lookup_insert_eq.
  - rewrite lookup_insert_ne by done. intros Hk. apply Hok in Hk as Hobj.
    rewrite lookup_insert_ne; [done|]. intros Heq.
    assert (fresh (dom (objects st)) ∈ dom (objects st)) as Hin.
    { rewrite Heq. apply elem_of_dom. by eexists. }
    by apply is_fresh in Hin.
Qed.

Lemma wrap_unfold element st :
  wrap element st = match wrapper_call element with
                    | Some call => construct call st
                    | None => (element, st)
                    end.
Proof. by destruct element as [[]|]. Qed.

Lemma wrap_keeps element st k a :
  cache st !! k = Some a → cache (wrap element st).2 !! k = Some a.
Proof.
  intros Hk. rewrite wrap_unfold. destruct (wrapper_call element); [|done].
  by apply construct_keeps.
Qed.

Lemma wrap_all_keeps elements st k a :
  cache st !! k = Some a → cache (wrap_all elements st) !! k = Some a.
Proof.
  revert st. induction elements as [|e elements IH]; intros st Hk; [done|].
  cbn. apply IH. by apply wrap_keeps.
Qed.

Lemma wrap_ok element st : store_ok st → store_ok (wrap element st).2.
Proof.
  intros Hok. rewrite wrap_unfold. destruct (wrapper_call element); [|done].
  by apply construct_ok.
Qed.

(** C8.  [wrap] is a total function.  For a class, function or module
    node it returns a wrapper of the class [Class], [Function] or
    [ModuleWrapper] around the node; calling it again on the same node, at
    once or after any other calls of the session, returns the same object.
    Every other element, a wrapper included, is returned as it is and the
    store is not touched. *)
Theorem wrap_identity_stable (element : ref) (later : list ref) (st : store) :
  store_ok st →
  let r := (wrap element st).1 in
  let st' := (wrap element st).2 in
  store_ok st'
  ∧ wrap element st' = (r, st')
  ∧ (wrap element (wrap_all later st')).1 = r
  ∧ match element with
    | Raw (PrClass n) => ∃ a, r = Wrapped a ∧ objects st' !! a = Some (Class n)
    | Raw (PrFunction n) =>
        ∃ a, r = Wrapped a ∧ objects st' !! a = Some (Function (PrFunction n) false)
    | Raw (PrModule n) => ∃ a, r = Wrapped a ∧ objects st' !! a = Some (ModuleWrapper n)
    | _ => r = element ∧ st' = st
    end.
Proof.
  intros Hok r st'. subst r st'.
  split; [by apply wrap_ok|].
  pose proof (wrap_ok element st Hok) as Hok'.
  rewrite !wrap_unfold in *.
  destruct (wrapper_call element) as [call|] eqn:Hcall.
  - destruct (construct_cached call st) as (a & Hr & Hc).
    assert (Hshape : ∃ a, (construct call st).1 = Wrapped a
                          ∧ objects (construct call st).2 !! a = Some call).
    { exists a. split; [done|]. by apply Hok'. }
    split; [|split].
    + rewrite (construct_hit _ _ _ Hc). rewrite <- Hr. by destruct (construct call st).
    + rewrite (construct_hit call a); [by rewrite Hr|]. by apply wrap_all_keeps.
    + destruct element as [[]|]; try done; by injection Hcall as <-.
  - split; [done|]. split; [done|]. by destruct element as [[]|].
Qed.

End WrapperCacheProperties.

(** * More properties *)

Section MoreProperties.

Context (T : tree) (C : compiled) (E : evaluator) (X : surroundings).

(** ** Lookup of subscopes *)

Lemma find_last_match {A} (p : A → bool) (before after : list A) (x : A) :
  p x = true → Forall (λ y, p y = false) after →
  List.find p (reverse (before ++ x :: after)) = Some x.
Proof.
  intros Hx Hafter. rewrite reverse_app, reverse_cons.
  rewrite <- app_assoc. cbn [app].
  induction after as [|y after IH] using rev_ind.
  - cbn. by rewrite Hx.
  - apply Forall_app in Hafter as [Hafter Hy]. apply Forall_inv in Hy.
    rewrite reverse_snoc. cbn [app List.find]. rewrite Hy. by apply IH.
Qed.

Lemma find_none_iff {A} (p : A → bool) (l : list A) :
  List.find p l = None ↔ ∀ x, x ∈ l → p x = false.
Proof.
  induction l as [|y l IH]; cbn.
  - split; [|done]. intros _ x Hx. by apply elem_of_nil in Hx.
  - destruct (p y) eqn:Hy.
    + split; [done|]. intros Hall. specialize (Hall y (list_elem_of_here _ _)). congruence.
    + rewrite IH. split.
      * intros Hall x [->|Hx]%elem_of_cons; [done|by apply Hall].
      * intros Hall x Hx. apply Hall. by right.
Qed.

Lemma lookup_subscope_none_iff scopes name :
  lookup_subscope T C scopes name = None ↔
  ∀ scope sub, scope ∈ scopes → sub ∈ subscopes_of T C scope → name_code T sub ≠ name.
Proof.
  induction scopes as [|scope scopes IH]; cbn [lookup_subscope].
  - split; [|done]. intros _ scope sub Hin. by apply elem_of_nil in Hin.
  - destruct (List.find _ _) as [found|] eqn:Hfind.
    + split; [done|]. intros Hall. apply find_some in Hfind as [Hin Hp].
      apply bool_decide_eq_true in Hp. apply list_elem_of_In in Hin.
      rewrite elem_of_reverse in Hin.
      by destruct (Hall scope found (list_elem_of_here _ _) Hin).
    + rewrite IH. rewrite find_none_iff in Hfind. split.
      * intros Hall sc sub [->|Hsc]%elem_of_cons Hsub; [|by eapply Hall].
        rewrite <- elem_of_reverse in Hsub. apply Hfind in Hsub.
        by apply bool_decide_eq_false in Hsub.
      * intros Hall sc sub Hsc. apply Hall. by right.
Qed.

(** X1.  In a session where no call of [py__bases__] is in progress,
    [Class.get_subscope_by_name] raises [KeyError] exactly when no subscope
    of the class or of one of its direct bases has the name, and raises
    nothing else; a subscope of the class itself is found before those of
    the bases, and of two subscopes of the class with the name the one
    defined last is returned. *)
Theorem Class_get_subscope_by_name_lookup (base : node) (name : string) (s : session) :
  bases_table_ok T E s →
  ((∃ s', Class_get_subscope_by_name T C E base name s = Raise KeyError s')
   ↔ ∀ scope sub, scope ∈ Class base :: spec_bases T E base →
       sub ∈ subscopes_of T C scope → name_code T sub ≠ name)
  ∧ (∀ e s', Class_get_subscope_by_name T C E base name s = Raise e s' → e = KeyError)
  ∧ Class_get_subscope_by_name T C E base name s ≠ OutOfFuel
  ∧ (∀ before sub after,
       subscopes T base = before ++ sub :: after →
       name_code T sub = name →
       Forall (λ later, name_code T later ≠ name) after →
       ∃ s', Class_get_subscope_by_name T C E base name s = Ret sub s').
Proof.
  intros Hok. rewrite Class_get_subscope_by_name_run by done. split; [|split; [|split]].
  - rewrite <- lookup_subscope_none_iff.
    destruct (lookup_subscope _ _ _ _); split; try done.
    + by intros [s' ?].
    + intros _. by eexists.
  - intros e s0. destruct (lookup_subscope _ _ _ _); [done|]. by intros [= <- _].
  - by destruct (lookup_subscope _ _ _ _).
  - intros before sub after Hsubs Hname Hafter. cbn [lookup_subscope subscopes_of].
    rewrite Hsubs, (find_last_match _ before after sub); [by eexists|by apply bool_decide_eq_true|].
    eapply Forall_impl; [exact Hafter|]. intros later Hl. by apply bool_decide_eq_false.
Qed.

(** ** Subscripts *)

Lemma Instance_execute_subscope_by_name_run base var_args name args s :
  let self := Instance (Class base) var_args in
  bases_table_ok T E s →
  Instance_execute_subscope_by_name T C E self name args s =
    match lookup_subscope T C (Class base :: spec_bases T E base) name with
    | Some sub => Ret (execute E (get_instance_el self sub true) args)
                      (after_py__bases__ T E base s)
    | None => Raise KeyError (after_py__bases__ T E base s)
    end.
Proof.
  cbn zeta. intros Hok.
  unfold Instance_execute_subscope_by_name, Instance_get_subscope_by_name.
  rewrite !bind_unfold. cbn [call_get_subscope_by_name].
  rewrite Class_get_subscope_by_name_run by done.
  by destruct (lookup_subscope _ _ _ _).
Qed.

(** X2.  In a session where no call of [py__bases__] is in progress,
    [Instance.get_index_types] raises nothing for an instance of a class.
    When neither the class nor a direct base has [__getitem__] it returns
    the empty list, and the warning is the last thing it writes.  Otherwise
    it executes [__getitem__], bound to the instance, on one statement that
    holds the indexes, or no index at all as soon as one of them is a
    slice. *)
Theorem Instance_get_index_types_never_raises
    (base : node) (var_args index_array : list obj) (s : session) :
  let self := Instance (Class base) var_args in
  let indexes := create_indexes_or_slices X index_array in
  bases_table_ok T E s →
  match lookup_subscope T C (Class base :: spec_bases T E base) "__getitem__" with
  | Some sub =>
      Instance_get_index_types T C E X self index_array s =
        Ret (execute E (get_instance_el self sub true)
               [FakeStatement X (if existsb (is_slice X) indexes then [] else indexes)])
            (after_py__bases__ T E base s)
  | None =>
      Instance_get_index_types T C E X self index_array s =
        Ret [] (log_events [Warning "No __getitem__, cannot access the array."]
                  (after_py__bases__ T E base s))
  end.
Proof.
  cbn zeta. intros Hok. unfold Instance_get_index_types, try_except.
  rewrite Instance_execute_subscope_by_name_run by done.
  destruct (lookup_subscope _ _ _ _); [done|].
  rewrite decide_True by done. by rewrite bind_unfold, warning_unfold.
Qed.

(** ** The loop over the returns *)

(** X3.  In [get_return_types], nothing that comes after a return which is
    certain to execute is looked at: the loop, on any evaluator, gives the
    same result and leaves the same session as on the returns cut after
    it. *)
Theorem returns_loop_stops_at_reachable
    (eval_stmt : node → M (list obj)) (self : obj) (before after : list return_point)
    (r : return_point) (stmt : node) (types : list obj) (s : session) :
  return_stmt r = Some stmt →
  break_check E self (return_parent r) = REACHABLE →
  returns_loop E eval_stmt self (before ++ r :: after) types s =
    returns_loop E eval_stmt self (before ++ [r]) types s.
Proof.
  intros Hstmt Hcheck. revert types s.
  induction before as [|r0 before IH]; intros types s.
  - cbn [app returns_loop]. rewrite Hstmt, Hcheck, !bind_unfold.
    rewrite decide_False by done. rewrite bind_unfold.
    destruct (eval_stmt stmt s) as [found s1| |]; [|done..].
    cbn [mret M_ret]. by rewrite !decide_True by done.
  - cbn [app returns_loop]. destruct (return_stmt r0); [|by apply IH].
    rewrite !bind_unfold.
    destruct (decide (break_check E self (return_parent r0) = UNREACHABLE)).
    + cbn [mret M_ret]. destruct (decide _); [done|by apply IH].
    + rewrite !bind_unfold. destruct (eval_stmt n s) as [found s1| |]; [|done..].
      cbn [mret M_ret]. destruct (decide _); [done|by apply IH].
Qed.

(** X4.  In [get_return_types], a return without a statement and a return
    that is unreachable are passed over without evaluating anything: the
    loop, on any evaluator, behaves as if the return were not there. *)
Theorem returns_loop_skips_unreachable
    (eval_stmt : node → M (list obj)) (self : obj) (before after : list return_point)
    (r : return_point) (types : list obj) (s : session) :
  return_stmt r = None ∨ break_check E self (return_parent r) = UNREACHABLE →
  returns_loop E eval_stmt self (before ++ r :: after) types s =
    returns_loop E eval_stmt self (before ++ after) types s.
Proof.
  intros Hskip. revert types s.
  induction before as [|r0 before IH]; intros types s.
  - cbn [app returns_loop]. destruct (return_stmt r) as [stmt|]; [|done].
    destruct Hskip as [[=]|Hcheck]. rewrite Hcheck, bind_unfold.
    rewrite decide_True by done. cbn [mret M_ret]. by rewrite decide_False.
  - cbn [app returns_loop]. destruct (return_stmt r0); [|by apply IH].
    rewrite !bind_unfold.
    destruct (decide (break_check E self (return_parent r0) = UNREACHABLE)).
    + cbn [mret M_ret]. destruct (decide _); [done|by apply IH].
    + rewrite !bind_unfold. destruct (eval_stmt n s) as [found s1| |]; [|done..].
      cbn [mret M_ret]. destruct (decide _); [done|by apply IH].
Qed.

Lemma returns_loop_extends eval_stmt self rs : ∀ types s types' s',
  returns_loop E eval_stmt self rs types s = Ret types' s' →
  ∃ more, types' = types ++ more.
Proof.
  induction rs as [|r rs IH]; intros types s types' s'.
  - cbn. intros [= <- <-]. exists []. by rewrite app_nil_r.
  - cbn [returns_loop]. destruct (return_stmt r) as [stmt|]; [|by apply IH].
    rewrite bind_unfold.
    destruct (decide (break_check E self (return_parent r) = UNREACHABLE)).
    + cbn [mret M_ret]. destruct (decide _); [|by apply IH].
      intros [= <- <-]. exists []. by rewrite app_nil_r.
    + rewrite bind_unfold. destruct (eval_stmt stmt s) as [found s1| |]; [|done..].
      cbn [mret M_ret]. destruct (decide _).
      * intros [= <- <-]. by exists found.
      * intros Hrest. apply IH in Hrest as [more ->]. exists (found ++ more).
        by rewrite app_assoc.
Qed.

(** X5.  Whatever the returns of a function without listeners evaluate to,
    the types that a call of [Function.py__call__] returns, when the
    function is no generator and its call shape is not in progress, begin
    with the types of the docstring, in their order; so do the types of
    [get_return_types] on an execution that its table does not know. *)
Theorem get_return_types_keeps_docstring
    (eval_stmt : node → M (list obj)) (func : obj) (var_args : list obj) (fn : node)
    (s : session) :
  raw_function func = Some fn →
  listeners T fn = [] →
  (func, var_args) ∉ execution_stack s →
  (is_generator T fn = false →
   ∀ types s', Function_py__call__ T E eval_stmt func var_args s = Ret types s' →
     ∃ more, types = find_return_types E func ++ more)
  ∧ (memoize_cache s !! ("get_return_types", FunctionExecution func var_args) = None →
     ∀ types s',
       get_return_types T E eval_stmt (FunctionExecution func var_args) s = Ret types s' →
       ∃ more, types = find_return_types E func ++ more).
Proof.
  intros Hfn Hlisteners Hstack.
  assert (Hguarded : ∀ s0 types s', execution_stack s0 = execution_stack s →
    get_return_types_guarded T E eval_stmt (FunctionExecution func var_args) s0 = Ret types s' →
    ∃ more, types = find_return_types E func ++ more).
  { intros s0 types s' Hs0.
    unfold get_return_types_guarded, execution_recursion_decorator.
    rewrite decide_False by (by rewrite Hs0).
    unfold get_return_types_body. rewrite bind_unfold.
    unfold getattr_function. rewrite Hfn. cbn [mret M_ret].
    rewrite decide_False by (by intros Hsome).
    destruct (returns_loop _ _ _ _ _ _) as [types0 s1| |] eqn:Hloop; [|done..].
    intros [= <- <-]. by eapply returns_loop_extends. }
  split.
  - intros Hgen types s'. unfold Function_py__call__. rewrite bind_unfold.
    unfold getattr_function. rewrite Hfn. cbn [mret M_ret]. rewrite Hgen.
    by apply Hguarded.
  - intros Hmiss types s'. unfold get_return_types, memoize_default. rewrite Hmiss.
    destruct (get_return_types_guarded _ _ _ _ _) as [rv s2| |] eqn:Hrun; [|done..].
    intros [= <- <-]. by eapply Hguarded; [|exact Hrun].
Qed.

(** ** Decorators *)

(** X6.  The loop of [_decorated_func] over a stack of decorators is the
    loop over the first ones followed by the loop over the others, on the
    function that the first ones gave; when the first ones fail the others
    are not looked at. *)
Theorem apply_decorators_stack (decs1 decs2 : list node) (f : obj) (s : session) :
  apply_decorators E (decs1 ++ decs2) f s =
    (r ← apply_decorators E decs1 f;
     match r with
     | Some f' => apply_decorators E decs2 f'
     | None => mret None
     end) s.
Proof.
  revert f s. induction decs1 as [|dec decs1 IH]; intros f s; [done|].
  cbn [app apply_decorators]. rewrite !bind_unfold, !dbg_unfold.
  destruct (pop (eval_statement E dec)) as [[decorator rest]|].
  - rewrite !bind_unfold.
    destruct (decide (rest = [])).
    + cbn [mret M_ret]. destruct (execute E decorator [Function f true]) as [|f' others].
      * by rewrite !bind_unfold, !warning_unfold.
      * rewrite !bind_unfold. destruct (decide (others = [])).
        -- cbn [mret M_ret]. rewrite !bind_unfold, !dbg_unfold. rewrite IH. by rewrite bind_unfold.
        -- rewrite !warning_unfold, !bind_unfold, !dbg_unfold. rewrite IH. by rewrite bind_unfold.
    + rewrite !warning_unfold. destruct (execute E decorator [Function f true]) as [|f' others].
      * by rewrite !bind_unfold, !warning_unfold.
      * rewrite !bind_unfold. destruct (decide (others = [])).
        -- cbn [mret M_ret]. rewrite !bind_unfold, !dbg_unfold. rewrite IH. by rewrite bind_unfold.
        -- rewrite !warning_unfold, !bind_unfold, !dbg_unfold. rewrite IH. by rewrite bind_unfold.
  - by rewrite !bind_unfold, !warning_unfold.
Qed.

Lemma resolve_decorators_unresolved (before after : list node) (dec : node) (f : obj) :
  match last (eval_statement E dec) with
  | Some decorator => ∀ g, execute E decorator [Function g true] = []
  | None => True
  end →
  resolve_decorators E (before ++ dec :: after) f = None.
Proof.
  intros Hdec. revert f. induction before as [|d before IH]; intros f.
  - cbn [app resolve_decorators]. destruct (last (eval_statement E dec)); [|done].
    by rewrite Hdec.
  - cbn [app resolve_decorators]. destruct (last (eval_statement E d)); [|done].
    by destruct (execute E o [Function f true]).
Qed.

(** X7.  When one decorator of a function cannot be resolved, because its
    statement evaluates to nothing or because the decorator it evaluates to
    gives no wrapper, [get_decorated_func] ignores every decorator of the
    function, the resolved ones included, and returns the function itself
    as a processed [Function]. *)
Theorem get_decorated_func_unresolved_decorator
    (fn : node) (outer inner : list node) (dec : node) (s : session) :
  decorators T fn = outer ++ dec :: inner →
  match last (eval_statement E dec) with
  | Some decorator => ∀ g, execute E decorator [Function g true] = []
  | None => True
  end →
  ∃ s', get_decorated_func T E (Function (PrFunction fn) false) s =
          Ret (Function (PrFunction fn) true) s'.
Proof.
  intros Hdecs Hdec. unfold get_decorated_func, _decorated_func.
  rewrite !bind_unfold. cbn [getattr_function raw_function mret M_ret].
  rewrite Hdecs, reverse_app, reverse_cons, <- app_assoc. cbn [app].
  destruct (apply_decorators_run E (reverse inner ++ dec :: reverse outer) (PrFunction fn) s)
    as [evs Hrun].
  rewrite Hrun, resolve_decorators_unresolved by done. by eexists.
Qed.

Lemma get_decorated_func_processed fn is_decorated s :
  decorators T fn = [] ∨ is_decorated = true →
  get_decorated_func T E (Function (PrFunction fn) is_decorated) s =
    Ret (Function (PrFunction fn) true) s.
Proof.
  intros Hcase. unfold get_decorated_func, _decorated_func. rewrite !bind_unfold.
  destruct is_decorated; [done|]. destruct Hcase as [Hnone|[=]].
  unfold getattr_function. cbn [raw_function]. rewrite bind_unfold. cbn [mret M_ret].
  by rewrite Hnone.
Qed.


(** ** The resolution order and the ancestors *)

Lemma add_elem_iff mro cls x : x ∈ add mro cls ↔ x ∈ mro ∨ x = cls.
Proof.
  unfold add. destruct (decide (cls ∈ mro)) as [Hin|Hnotin].
  - split; [by left|]. by intros [?| ->].
  - rewrite elem_of_app, list_elem_of_singleton. done.
Qed.

Lemma foldl_add_elem_iff l mro x : x ∈ foldl add mro l ↔ x ∈ mro ∨ x ∈ l.
Proof.
  revert mro. induction l as [|y l IH]; intros mro.
  - cbn. split; [by left|]. intros [?|Hx]; [done|]. by apply elem_of_nil in Hx.
  - cbn [foldl]. rewrite IH, add_elem_iff, elem_of_cons. tauto.
Qed.

Lemma linearize_elem_iff (order_of : obj → list obj) (bases acc : list obj) (x : obj) :
  x ∈ foldl (λ mro cls, foldl add (add mro cls) (order_of cls)) acc bases
  ↔ x ∈ acc ∨ ∃ cls, cls ∈ bases ∧ (x = cls ∨ x ∈ order_of cls).
Proof.
  revert acc. induction bases as [|cls bases IH]; intros acc.
  - cbn. split; [by left|]. intros [?|(cls & Hcls & _)]; [done|]. by apply elem_of_nil in Hcls.
  - cbn [foldl]. rewrite IH, foldl_add_elem_iff, add_elem_iff. split.
    + intros [[[?| ->]|Hx]|(c & Hc & Hx)].
      * by left.
      * right. exists cls. split; [by left|by left].
      * right. exists cls. split; [by left|by right].
      * right. exists c. split; [by right|done].
    + intros [?|(c & [->|Hc]%elem_of_cons & Hx)].
      * by left; left; left.
      * destruct Hx as [->|Hx]; [by left; left; right|by left; right].
      * right. by exists c.
Qed.

Lemma linearize_extends (order_of : obj → list obj) (bases acc : list obj) :
  ∃ more, foldl (λ mro cls, foldl add (add mro cls) (order_of cls)) acc bases = acc ++ more.
Proof.
  revert acc. induction bases as [|cls bases IH]; intros acc.
  - exists []. by rewrite app_nil_r.
  - cbn [foldl]. destruct (add_extends acc cls) as [m1 ->].
    destruct (foldl_add_extends (order_of cls) (acc ++ m1)) as [m2 ->].
    destruct (IH ((acc ++ m1) ++ m2)) as [m3 ->].
    exists (m1 ++ m2 ++ m3). by rewrite !app_assoc.
Qed.

Lemma linearize_NoDup (order_of : obj → list obj) (bases acc : list obj) :
  NoDup acc → NoDup (foldl (λ mro cls, foldl add (add mro cls) (order_of cls)) acc bases).
Proof.
  revert acc. induction bases as [|cls bases IH]; intros acc Hnd; [done|].
  cbn [foldl]. by apply IH, foldl_add_NoDup, add_NoDup.
Qed.

Lemma foldl_add_fresh l : ∀ mro,
  NoDup l → (∀ x, x ∈ l → x ∉ mro) → foldl add mro l = mro ++ l.
Proof.
  induction l as [|y l IH]; intros mro Hnd Hfresh.
  - by rewrite app_nil_r.
  - apply NoDup_cons in Hnd as [Hy Hnd]. cbn [foldl]. unfold add at 2.
    rewrite decide_False by (apply Hfresh; by left).
    rewrite IH; [by rewrite <- app_assoc|done|].
    intros x Hx [Hin| ->%list_elem_of_singleton]%elem_of_app; [|done].
    by apply (Hfresh x); [right|].
Qed.

Lemma ancestor_rank rank :
  acyclic T E rank →
  (∀ k cls, cls ∈ compiled_mro C k → ∃ k', cls = CompiledObject k') →
  ∀ cls above, ancestor T C E cls above →
    ∀ b c, cls = Class b → above = Class c → rank c < rank b.
Proof.
  intros Hacyclic Hcompiled cls above Hanc.
  induction Hanc as [b cls Hcls|k cls Hcls|b cls above Hcls Hanc IH]; intros b' c.
  - intros [= <-] ->. by apply Hacyclic.
  - done.
  - intros [= <-] ->. inversion Hanc as [b1 ? H1|k ? H1|b1 cls1 ? H1 H2]; subst.
    + apply Hacyclic in Hcls. specialize (IH b1 c eq_refl eq_refl). lia.
    + by apply Hcompiled in H1 as [k' ?].
    + apply Hacyclic in Hcls. specialize (IH b1 c eq_refl eq_refl). lia.
Qed.

Lemma pure_mro_elem_iff rank :
  acyclic T E rank →
  ∀ depth b above, rank b < depth →
    above ∈ pure_mro T C E depth (Class b) ↔ above = Class b ∨ ancestor T C E (Class b) above.
Proof.
  intros Hacyclic. induction depth as [|depth IH]; intros b above Hdepth; [lia|].
  cbn [pure_mro]. unfold spec_linearization. rewrite linearize_elem_iff, list_elem_of_singleton.
  pose proof (spec_bases_classes T E b) as Hkinds. rewrite Forall_forall in Hkinds.
  split.
  - intros [?|(cls & Hcls & Habove)]; [by left|]. right.
    destruct Habove as [->|Habove]; [by constructor|].
    specialize (Hkinds cls Hcls). destruct cls as [| | | | | | |k| |c| | | | |]; try done.
    + eapply ancestor_step; [exact Hcls|]. apply ancestor_compiled. by destruct depth.
    + apply IH in Habove as [->|Habove]; [by constructor| |].
      * by eapply ancestor_step.
      * apply Hacyclic in Hcls. lia.
  - intros [?|Hanc]; [by left|]. right.
    inversion Hanc as [? cls Hcls|?|? cls ? Hcls Hrest]; subst.
    + exists above. by split; [|left].
    + exists cls. split; [done|]. right.
      specialize (Hkinds cls Hcls). destruct cls as [| | | | | | |k| |c| | | | |]; try done.
      * inversion Hrest; subst. by destruct depth.
      * apply IH; [|by right]. apply Hacyclic in Hcls. lia.
Qed.

Lemma pure_mro_shape depth b :
  ∃ more, pure_mro T C E (S depth) (Class b) = Class b :: more
          ∧ NoDup (Class b :: more).
Proof.
  cbn [pure_mro]. unfold spec_linearization.
  destruct (linearize_extends (pure_mro T C E depth) (spec_bases T E b) [Class b]) as [more Hmore].
  exists more. split; [done|]. change (Class b :: more) with ([Class b] ++ more).
  rewrite <- Hmore. apply linearize_NoDup, NoDup_singleton.
Qed.

Lemma exact_table_below rank r s : exact_table T C E rank s → exact_below T C E rank r s.
Proof. intros Hexact b mro _. apply Hexact. Qed.



(** ** The self-attributes of an instance *)

Lemma for_each_invariant {A B} (I : B → session → Prop) (l : list A) (body : B → A → M B) :
  (∀ acc x s acc' s', x ∈ l → I acc s → body acc x s = Ret acc' s' → I acc' s') →
  ∀ acc s acc' s', I acc s → for_each l acc body s = Ret acc' s' → I acc' s'.
Proof.
  induction l as [|x l IH]; intros Hbody acc s acc' s' Hacc.
  - cbn. by intros [= <- <-].
  - rewrite for_each_cons. destruct (body acc x s) as [acc1 s1| |] eqn:Hx; [|done..].
    apply IH.
    + intros a y s0 a' s0' Hy. apply Hbody. by right.
    + eapply Hbody; [by left|exact Hacc|exact Hx].
Qed.

Lemma for_each_returns {A B} (I : B → session → Prop) (l : list A) (body : B → A → M B) :
  (∀ acc x s, x ∈ l → I acc s → ∃ acc' s', body acc x s = Ret acc' s' ∧ I acc' s') →
  ∀ acc s, I acc s → ∃ acc' s', for_each l acc body s = Ret acc' s' ∧ I acc' s'.
Proof.
  induction l as [|x l IH]; intros Hbody acc s Hacc.
  - by exists acc, s.
  - rewrite for_each_cons.
    destruct (Hbody acc x s) as (acc1 & s1 & -> & Hacc1); [by left|done|].
    apply IH; [|done]. intros a y s0 Hy. apply Hbody. by right.
Qed.

Lemma bind_returns {A B} (m : M A) (k : A → M B) s b s' :
  (m ≫= k) s = Ret b s' → ∃ a s1, m s = Ret a s1 ∧ k a s1 = Ret b s'.
Proof. rewrite bind_unfold. destruct (m s) as [a s1| |]; [|done..]. by exists a, s1. Qed.

Lemma getattr_function_returns func s fn s' :
  getattr_function func s = Ret fn s' → s' = s.
Proof. unfold getattr_function. destruct (raw_function func); [|done]. by intros [= _ <-]. Qed.

Lemma call_get_defined_names_returns sub s defined s' :
  call_get_defined_names T E sub s = Ret defined s' → s' = s.
Proof. destruct sub; try done; by intros [= _ <-]. Qed.

Lemma _get_method_execution_returns self sub s scope s' :
  _get_method_execution self sub s = Ret scope s' → s' = s.
Proof. destruct self; try done; by intros [= _ <-]. Qed.

Lemma add_self_dot_name_run self names_ nm s names' s' :
  length (names nm) = 2 →
  add_self_dot_name self names_ nm s = Ret names' s' →
  s' = s ∧ ∃ attr, names' = names_ ++ [InstanceElement self (PrName (Name [attr] attr)) false].
Proof.
  unfold add_self_dot_name. destruct (names nm) as [|first [|attr [|third rest]]]; try done.
  intros _. cbn. intros [= <- <-]. split; [done|]. by exists attr.
Qed.

Lemma scan_defined_names_adds self self_name defined names_ s names' s' :
  scan_defined_names self self_name defined names_ s = Ret names' s' →
  s' = s ∧ (Forall self_attribute names_ → Forall self_attribute names').
Proof.
  unfold scan_defined_names.
  apply (for_each_invariant (λ acc s0, s0 = s ∧ (Forall self_attribute names_ →
                                                   Forall self_attribute acc)));
    [|by split].
  clear. intros acc n s0 acc' s0' _ [-> Hacc].
  destruct (names n) as [|first rest] eqn:Hn; [done|].
  destruct (decide _) as [[_ Hlen]|_]; [|by intros [= <- <-]].
  rewrite <- Hn in Hlen. intros (-> & attr & ->)%add_self_dot_name_run; [|done].
  split; [done|]. intros Hall. apply Forall_app. split; [by apply Hacc|].
  apply Forall_singleton. by eexists _, _.
Qed.

Lemma scan_subscope_methods self names_ sub :
  (∀ n, sub ≠ PrClass n) →
  scan_subscope T E self names_ sub =
    (self_name ← _get_func_self_name T sub;
     match self_name with
     | None | Some "" => mret names_
     | Some self_name =>
         sub ← (if decide (name_code T sub = "__init__") then
                  fn ← getattr_function sub;
                  if decide (decorators T fn = []) then _get_method_execution self sub
                  else mret sub
                else mret sub);
         defined ← call_get_defined_names T E sub;
         scan_defined_names self self_name defined names_
     end).
Proof. intros Hsub. destruct sub; try done. by destruct (Hsub n). Qed.

Lemma scan_subscope_adds self names_ sub s names' s' :
  scan_subscope T E self names_ sub s = Ret names' s' →
  s' = s ∧ (Forall self_attribute names_ → Forall self_attribute names').
Proof.
  destruct (decide (is_Some (match sub with PrClass n => Some n | _ => None end)))
    as [Hclass|Hsub].
  { destruct sub; try (by destruct Hclass). by intros [= <- <-]. }
  rewrite scan_subscope_methods by (intros n ->; apply Hsub; by eexists).
  intros (self_name & s1 & Hname & Hrest)%bind_returns.
  assert (s1 = s) as ->.
  { revert Hname. unfold _get_func_self_name.
    intros (fn & s2 & ->%getattr_function_returns & [= _ <-])%bind_returns. done. }
  destruct self_name as [[|c self_name]|];
    [by injection Hrest as <- <-| |by injection Hrest as <- <-].
  apply bind_returns in Hrest as (scope & s1 & Hscope & Hrest).
  assert (s1 = s) as ->.
  { revert Hscope. destruct (decide _); [|by intros [= _ <-]].
    intros (fn & s2 & ->%getattr_function_returns & Hexec)%bind_returns.
    destruct (decide _); [by apply _get_method_execution_returns in Hexec|].
    by injection Hexec as _ <-. }
  apply bind_returns in Hrest as (defined & s1 & ->%call_get_defined_names_returns & Hrest).
  by eapply scan_defined_names_adds.
Qed.

Lemma attrs_cached_after_py__bases__ base inst s :
  attrs_cached (after_py__bases__ T E base s) inst = attrs_cached s inst.
Proof. unfold attrs_cached. by apply after_py__bases___cache. Qed.

Lemma attrs_cached_set_memo_eq inst v s :
  attrs_cached (set_memo ("get_self_attributes", inst) v s) inst = Some v.
Proof. unfold attrs_cached. cbn. by rewrite lookup_insert_eq. Qed.

Lemma attrs_cached_set_memo_ne inst other v s :
  other ≠ inst →
  attrs_cached (set_memo ("get_self_attributes", inst) v s) other = attrs_cached s other.
Proof.
  intros Hne. unfold attrs_cached. cbn. rewrite lookup_insert_ne; [done|]. by intros [= ->].
Qed.

Lemma call_py__bases___returns base s bases s' :
  call_py__bases__ T C E base s = Ret bases s' →
  (∀ inst, attrs_cached s' inst = attrs_cached s inst) ∧ stable s s'.
Proof.
  destruct base; try done.
  - cbn. intros [= _ <-]. split; [done|apply stable_refl].
  - cbn [call_py__bases__]. rewrite py__bases___run. intros [= _ <-]. split.
    + intros inst. apply attrs_cached_after_py__bases__.
    + intros k x. apply after_py__bases___keeps.
Qed.

Lemma get_self_attributes_unfold fuel base var_args s :
  let self := Instance base var_args in
  get_self_attributes T C E (S fuel) self s =
    match attrs_cached s self with
    | Some rv => Ret rv s
    | None =>
        match (subs ← getattr_subscopes T C base;
               names_ ← for_each subs [] (scan_subscope T E self);
               bases ← call_py__bases__ T C E base;
               inherited_attributes E (get_self_attributes T C E fuel) bases names_)
                (set_memo ("get_self_attributes", self) [] s) with
        | Ret rv s2 => Ret rv (set_memo ("get_self_attributes", self) rv s2)
        | r => r
        end
    end.
Proof. done. Qed.

(** X11.  Every self-attribute that [get_self_attributes] returns is a
    copy of a name of one segment, [attr] with the source text [attr], bound
    to an instance as an instance variable ([is_class_var] is False), in
    every session whose table holds such lists, and the table holds such
    lists afterwards. *)
Theorem get_self_attributes_shape (fuel : nat) :
  ∀ (self : obj) (s : session) (names_ : list obj) (s' : session),
    attrs_table_ok s →
    get_self_attributes T C E fuel self s = Ret names_ s' →
    Forall self_attribute names_ ∧ attrs_table_ok s'.
Proof.
  induction fuel as [|fuel IH]; intros self s names_ s' Hok.
  - by destruct self.
  - destruct self as [| | | | | | | | | | | |base var_args| |]; try done.
    rewrite get_self_attributes_unfold. cbn zeta.
    destruct (attrs_cached s (Instance base var_args)) as [rv|] eqn:Hc.
    { intros [= <- <-]. split; [by eapply Hok|done]. }
    set (self := Instance base var_args) in *.
    set (s1 := set_memo ("get_self_attributes", self) [] s).
    assert (Hs1 : attrs_table_ok s1).
    { intros inst v. unfold s1. destruct (decide (inst = self)) as [->|Hne].
      - rewrite attrs_cached_set_memo_eq. by intros [= <-].
      - rewrite attrs_cached_set_memo_ne by done. apply Hok. }
    fold s1.
    match goal with
    | |- match ?body with _ => _ end = _ → _ =>
        destruct body as [rv s2| |] eqn:Hbody; [|done..]
    end.
    intros [= <- <-].
    apply bind_returns in Hbody as (subs & s3 & Hsubs & Hbody).
    assert (s3 = s1) as -> by (destruct base; try done; by injection Hsubs as _ <-).
    apply bind_returns in Hbody as (own & s3 & Hown & Hbody).
    assert (Hown' : s3 = s1 ∧ Forall self_attribute own).
    { eapply (for_each_invariant (λ acc s0, s0 = s1 ∧ Forall self_attribute acc));
        [|split; [reflexivity|constructor]|exact Hown].
      intros acc sub s0 acc' s0' _ [-> Hacc] Hscan.
      apply scan_subscope_adds in Hscan as [-> Hadd]. split; [done|by apply Hadd]. }
    destruct Hown' as [-> Hshape].
    apply bind_returns in Hbody as (bases & s3 & Hbases & Hbody).
    apply call_py__bases___returns in Hbases as [Hsame _].
    assert (Hs3 : attrs_table_ok s3).
    { intros inst v. rewrite Hsame. apply Hs1. }
    assert (Hrv : Forall self_attribute rv ∧ attrs_table_ok s2).
    { unfold inherited_attributes in Hbody.
      eapply (for_each_invariant (λ acc s0, Forall self_attribute acc ∧ attrs_table_ok s0));
        [|split; [exact Hshape|exact Hs3]|exact Hbody].
      intros acc cls s0 acc' s0' _ [Hacc Hs0].
      assert (Hinner : for_each (execute E cls []) acc
                         (λ names_ inst, more ← get_self_attributes T C E fuel inst;
                                         mret (names_ ++ more)) s0 = Ret acc' s0' →
                       Forall self_attribute acc' ∧ attrs_table_ok s0').
      { apply (for_each_invariant (λ acc s0, Forall self_attribute acc ∧ attrs_table_ok s0));
          [|by split].
        intros acc0 inst s4 acc0' s4' _ [Hacc0 Hs4].
        intros (more & s5 & Hcall & [= <- <-])%bind_returns.
        apply IH in Hcall as [Hmore Hs5]; [|done]. split; [|done].
        apply Forall_app. by split. }
      destruct cls; try exact Hinner. by intros [= <- <-]. }
    destruct Hrv as [Hrv Hs2]. split; [done|].
    intros inst v. destruct (decide (inst = self)) as [->|Hne].
    + rewrite attrs_cached_set_memo_eq. by intros [= <-].
    + rewrite attrs_cached_set_memo_ne by done. apply Hs2.
Qed.

Lemma unknown_attrs_le U s s' : stable s s' → unknown_attrs U s' ≤ unknown_attrs U s.
Proof.
  intros Hst. unfold unknown_attrs. induction U as [|i U IH]; [done|].
  rewrite !filter_cons. destruct (decide (attrs_cached s' i = None)) as [Hn'|Hs'].
  - destruct (decide (attrs_cached s i = None)) as [Hn|Hs]; [cbn; lia|].
    destruct (attrs_cached s i) as [x|] eqn:Hi; [|done].
    apply Hst in Hi. unfold attrs_cached in Hn'. congruence.
  - destruct (decide (attrs_cached s i = None)); cbn; lia.
Qed.

Lemma unknown_attrs_lt U s s' i :
  stable s s' → i ∈ U → attrs_cached s i = None → attrs_cached s' i ≠ None →
  unknown_attrs U s' < unknown_attrs U s.
Proof.
  intros Hst Hin Hn Hs'. unfold unknown_attrs.
  induction U as [|i' U IH]; [by apply elem_of_nil in Hin|].
  rewrite !filter_cons. apply elem_of_cons in Hin as [<-|Hin].
  - rewrite decide_False, decide_True by done. cbn.
    pose proof (unknown_attrs_le U s s' Hst) as Hle. unfold unknown_attrs in Hle. lia.
  - specialize (IH Hin). destruct (decide (attrs_cached s' i' = None)) as [Hn'|Hs''].
    + destruct (decide (attrs_cached s i' = None)) as [Hni|Hsi]; [cbn; lia|].
      destruct (attrs_cached s i') as [x|] eqn:Hi; [|done].
      apply Hst in Hi. unfold attrs_cached in Hn'. congruence.
    + destruct (decide (attrs_cached s i' = None)); cbn; lia.
Qed.

Lemma unknown_attrs_bound U s : unknown_attrs U s ≤ length U.
Proof. unfold unknown_attrs. apply length_filter. Qed.

Lemma bases_table_ok_set_memo_attrs inst v s :
  bases_table_ok T E s → bases_table_ok T E (set_memo ("get_self_attributes", inst) v s).
Proof.
  intros Hok b bases. rewrite bases_cached_set_memo_ne by done. apply Hok.
Qed.

Lemma stable_set_memo key v s : memoize_cache s !! key = None → stable s (set_memo key v s).
Proof.
  intros Hmiss k x Hk. cbn. rewrite lookup_insert_ne; [done|]. intros <-. congruence.
Qed.

(** With fuel for the instances that are still to be computed, a call
    returns, keeps the entries of the tables and leaves its result there. *)
Lemma get_self_attributes_run U fuel : ∀ self s,
  closed_instances T E U →
  bases_table_ok T E s →
  self ∈ U →
  unknown_attrs U s < fuel →
  ∃ names_ s',
    get_self_attributes T C E fuel self s = Ret names_ s'
    ∧ stable s s'
    ∧ bases_table_ok T E s'
    ∧ attrs_cached s' self = Some names_.
Proof.
  intros self s Hclosed. revert self s.
  induction fuel as [|fuel IH]; intros self s Hbases Hin Hfuel; [lia|].
  destruct (Hclosed self Hin) as (base & var_args & -> & Hwf & Hup).
  rewrite get_self_attributes_unfold. cbn zeta.
  destruct (attrs_cached s (Instance (Class base) var_args)) as [rv|] eqn:Hc.
  { exists rv, s. split; [done|]. split; [apply stable_refl|]. by split. }
  pose (self := Instance (Class base) var_args).
  set (s1 := set_memo ("get_self_attributes", self) [] s).
  assert (Hst1 : stable s s1) by (by apply stable_set_memo).
  assert (Hb1 : bases_table_ok T E s1) by (by apply bases_table_ok_set_memo_attrs).
  assert (Hu1 : unknown_attrs U s1 < fuel).
  { assert (unknown_attrs U s1 < unknown_attrs U s); [|lia].
    apply (unknown_attrs_lt U s s1 self); [done..|].
    unfold s1. by rewrite attrs_cached_set_memo_eq. }
  rewrite bind_unfold. cbn [getattr_subscopes mret M_ret].
  rewrite bind_unfold, own_names_run by done.
  rewrite bind_unfold. cbn [call_py__bases__].
  rewrite py__bases___run, bases_answer_ok by done.
  set (s2 := after_py__bases__ T E base s1).
  assert (Hst2 : stable s1 s2) by (intros k x; apply after_py__bases___keeps).
  assert (Hb2 : bases_table_ok T E s2) by (by apply after_py__bases___ok).
  assert (Hloop : ∃ rv s3,
    inherited_attributes E (get_self_attributes T C E fuel) (spec_bases T E base)
      (own_names T E self base) s2 = Ret rv s3
    ∧ stable s2 s3 ∧ bases_table_ok T E s3).
  { unfold inherited_attributes.
    destruct (for_each_returns
                (λ (_ : list obj) s0, stable s2 s0 ∧ bases_table_ok T E s0)
                (spec_bases T E base)
                (λ names_ cls,
                   match cls with
                   | CompiledObject _ => mret names_
                   | _ => for_each (execute E cls []) names_
                            (λ names_ inst, more ← get_self_attributes T C E fuel inst;
                                            mret (names_ ++ more))
                   end)) with (acc := own_names T E self base) (s := s2)
      as (rv & s3 & Hrun & Hst3 & Hb3).
    - intros acc cls s0 Hcls [Hst0 Hb0].
      destruct (decide (is_Some (match cls with CompiledObject k => Some k | _ => None end)))
        as [Hcompiled|Hclass].
      { destruct cls; try (by destruct Hcompiled). by exists acc, s0. }
      destruct (for_each_returns
                  (λ (_ : list obj) s4, stable s2 s4 ∧ bases_table_ok T E s4)
                  (execute E cls [])
                  (λ names_ inst, more ← get_self_attributes T C E fuel inst;
                                  mret (names_ ++ more))) with (acc := acc) (s := s0)
        as (acc' & s' & Hrun & Hst' & Hb'); [|done|].
      + intros acc0 inst s4 Hinst [Hst4 Hb4].
        destruct (Hup cls inst Hcls Hinst) as [[k ->]|HinU].
        { exfalso. apply Hclass. by eexists. }
        destruct (IH inst s4) as (more & s5 & Hcall & Hst5 & Hb5 & _); [done|done| |].
        * pose proof (unknown_attrs_le U s1 s4 (stable_trans _ _ _ Hst2 Hst4)). lia.
        * exists (acc0 ++ more), s5. rewrite bind_unfold, Hcall. split; [done|].
          split; [by eapply stable_trans|done].
      + exists acc', s'. split; [|done].
        destruct cls; try exact Hrun. exfalso. apply Hclass. by eexists.
    - split; [apply stable_refl|done].
    - by exists rv, s3. }
  subst s2 s1 self. destruct Hloop as (rv & s3 & -> & Hst3 & Hb3).
  exists rv, (set_memo ("get_self_attributes", Instance (Class base) var_args) rv s3).
  split; [done|]. split; [|split].
  - intros k x Hk. cbn. rewrite lookup_insert_ne by (intros <-; unfold attrs_cached in Hc; congruence).
    by apply Hst3, Hst2, Hst1.
  - by apply bases_table_ok_set_memo_attrs.
  - apply attrs_cached_set_memo_eq.
Qed.

(** X12.  [get_self_attributes] returns on every finite set of instances
    of well-formed classes that is closed under executing the bases, also
    when the classes inherit from each other in a cycle: an instance whose
    attributes are being computed answers the empty placeholder.  The
    result is stored, and the entries of the tables are kept. *)
Theorem get_self_attributes_returns
    (U : list obj) (self : obj) (fuel : nat) (s : session) :
  closed_instances T E U →
  bases_table_ok T E s →
  self ∈ U →
  length U < fuel →
  ∃ names_ s',
    get_self_attributes T C E fuel self s = Ret names_ s'
    ∧ stable s s'
    ∧ attrs_cached s' self = Some names_.
Proof.
  intros Hclosed Hbases Hin Hfuel.
  destruct (get_self_attributes_run U fuel self s) as (names_ & s' & Hrun & Hst & _ & Hc);
    [done..| |].
  { pose proof (unknown_attrs_bound U s). lia. }
  by exists names_, s'.
Qed.

(** ** The names of a class and of an instance *)

Lemma scope_names_loop (x : list name) : ∀ (acc : list name) s,
  for_each x acc (λ names_ n,
    found ← in_iterable n [];
    if found : bool then (mret names_ : M (list name)) else mret (names_ ++ [n])) s =
    Ret (acc ++ x) s.
Proof.
  induction x as [|n x IH]; intros acc s.
  - cbn. by rewrite app_nil_r.
  - rewrite for_each_cons. cbn [in_iterable]. rewrite bind_unfold. cbn [mret M_ret].
    rewrite IH. by rewrite <- app_assoc.
Qed.

Lemma scope_classes_loop (mro : list obj) : ∀ (acc : list (obj * list name)) s,
  Forall (λ cls, is_class_or_compiled cls) mro →
  for_each mro acc (λ yielded cls,
    x ← match cls with
         | CompiledObject k => mret (instance_names X k)
         | Class b => mret (reverse (get_defined_names T (PrClass b)))
         | _ => raise AttributeError
         end;
    names_ ← for_each x ([] : list name) (λ names_ n,
      found ← in_iterable n [];
      if found : bool then (mret names_ : M (list name)) else mret (names_ ++ [n]));
    mret (yielded ++ [(cls, names_)])) s =
    Ret (acc ++ map (λ cls, (cls, names_of T X cls)) mro) s.
Proof.
  intros acc s Hall. revert acc.
  induction Hall as [|cls mro Hcls _ IH]; intros acc.
  - cbn. by rewrite app_nil_r.
  - rewrite for_each_cons.
    destruct cls; try done; rewrite bind_unfold; cbn [mret M_ret];
      rewrite bind_unfold, scope_names_loop; cbn [mret M_ret app];
      rewrite IH; cbn [map names_of]; by rewrite <- app_assoc.
Qed.

Lemma Class_scope_names_generator_run fuel base add_class_vars s s' mro :
  py__mro__ T C E fuel (Class base) s = Ret mro s' →
  Forall (λ cls, is_class_or_compiled cls) mro →
  Class_scope_names_generator T C E X fuel (Class base) add_class_vars s =
    Ret (map (λ cls, (cls, names_of T X cls)) mro
         ++ (if add_class_vars then [(Class base, type_names X)] else [])) s'.
Proof.
  intros Hmro Hall. unfold Class_scope_names_generator.
  rewrite bind_unfold, Hmro, bind_unfold, scope_classes_loop by done.
  cbn [app]. destruct add_class_vars; [done|]. cbn [mret M_ret]. by rewrite app_nil_r.
Qed.

(** X13.  [Class.scope_names_generator] yields one pair for each class of
    the resolution order, in that order, with every name that the class
    defines, last defined first; no name is left out because a class
    earlier in the order defines it too, nothing being ever added to
    [all_names].  With [add_class_vars] the last pair is the class itself
    with the names of [type]. *)
Theorem Class_scope_names_generator_every_name
    (fuel : nat) (base : node) (add_class_vars : bool) (s s' : session) (mro : list obj) :
  py__mro__ T C E fuel (Class base) s = Ret mro s' →
  Forall (λ cls, is_class_or_compiled cls) mro →
  Class_scope_names_generator T C E X fuel (Class base) add_class_vars s =
    Ret (map (λ cls, (cls, names_of T X cls)) mro
         ++ (if add_class_vars then [(Class base, type_names X)] else [])) s'.
Proof. apply Class_scope_names_generator_run. Qed.

(** X14.  [Instance.scope_names_generator] of an instance of a class
    yields the instance itself as the scope of every pair: first with its
    self-attributes, then once for each class of the resolution order with
    the names of that class, each bound to the instance as a class variable;
    the names of [type] are not among them. *)
Theorem Instance_scope_names_generator_scopes
    (fuel : nat) (base : node) (var_args : list obj) (s s1 s2 : session)
    (attributes mro : list obj) :
  let self := Instance (Class base) var_args in
  get_self_attributes T C E fuel self s = Ret attributes s1 →
  py__mro__ T C E fuel (Class base) s1 = Ret mro s2 →
  Forall (λ cls, is_class_or_compiled cls) mro →
  Instance_scope_names_generator T C E X fuel self s =
    Ret ((self, attributes)
         :: map (λ cls, (self, map (λ var, InstanceElement self (PrName var) true)
                                   (names_of T X cls))) mro) s2.
Proof.
  cbn zeta. intros Hattrs Hmro Hall. unfold Instance_scope_names_generator.
  rewrite bind_unfold, Hattrs, bind_unfold. cbn [call_scope_names_generator].
  rewrite (Class_scope_names_generator_run fuel base false s1 s2 mro) by done.
  cbn [mret M_ret]. rewrite app_nil_r, map_map. done.
Qed.

(** ** InstanceElement *)

Lemma InstanceElement_parent_run base var_args var is_class_var s :
  let instance := Instance (Class base) var_args in
  InstanceElement_parent X (InstanceElement instance var is_class_var) s =
    Ret (if decide (parent X var = Class base ∨ parent X var = PrClass base)
         then instance
         else get_instance_el instance (parent X var) is_class_var) s.
Proof.
  cbn zeta. unfold InstanceElement_parent.
  destruct (parent X var) as [n|n|n|n|n|nm|n|k|f a|n|f d|n|b a|i v d|b a] eqn:Hpar;
    try (rewrite decide_False by (by intros [?|?]); done).
  - rewrite bind_unfold. cbn [instance_base mret M_ret].
    destruct (decide (n = base)) as [->|Hne].
    + by rewrite decide_True by (by right).
    + rewrite decide_False; [done|]. intros [[=]|[= ?]]. done.
  - rewrite bind_unfold. cbn [instance_base mret M_ret].
    destruct (decide (Class n = Class base)) as [Heq|Hne].
    + by rewrite decide_True by (by left).
    + rewrite decide_False; [done|]. intros [?|[=]]. done.
Qed.

(** X15.  The parent of an element of an instance of a class is never the
    class of the instance, neither the parser class nor its wrapper, bare
    or bound to the instance: when the parent of the variable is that class,
    [InstanceElement.parent] is the instance itself.  It raises nothing and
    leaves the session as it is. *)
Theorem InstanceElement_parent_not_the_class
    (base : node) (var_args : list obj) (var : obj) (is_class_var : bool) (s : session) :
  let instance := Instance (Class base) var_args in
  ∃ par,
    InstanceElement_parent X (InstanceElement instance var is_class_var) s = Ret par s
    ∧ (parent X var = Class base ∨ parent X var = PrClass base → par = instance)
    ∧ par ≠ Class base
    ∧ par ≠ PrClass base
    ∧ (∀ flag, par ≠ InstanceElement instance (Class base) flag).
Proof.
  cbn zeta. rewrite InstanceElement_parent_run. eexists. split; [reflexivity|].
  destruct (decide (parent X var = Class base ∨ parent X var = PrClass base)) as [Hcls|Hnot].
  - split; [done|]. split; [done|]. split; [done|]. by intros flag.
  - split; [done|].
    destruct (parent X var) as [n|n|n|n|n|nm|n|k|f a|n|f d|n|b a|i v d|b a] eqn:Hpar;
      cbn [get_instance_el]; (split; [done|]); (split; [done|]); intros flag; try done.
    + intros [= -> _]. apply Hnot. by right.
    + intros [= -> _]. apply Hnot. by left.
Qed.

(** X16.  [InstanceElement.get_decorated_func] keeps the instance and
    drops the mark of a class variable: what it returns is what
    [get_decorated_func] of the variable returns, bound to the same instance
    with [is_class_var] False, or left as it is when it is of a kind that is
    never bound.  For a function without decorators that is the processed
    [Function], bound to the instance. *)
Theorem InstanceElement_get_decorated_func_rebinds
    (instance base_func : obj) (is_decorated is_class_var : bool) (s : session) :
  (∀ f s',
     get_decorated_func T E (Function base_func is_decorated) s = Ret f s' →
     call_get_decorated_func T E
       (InstanceElement instance (Function base_func is_decorated) is_class_var) s =
       Ret (if left_untouched f then f else InstanceElement instance (promoted f) false) s')
  ∧ (∀ fn, base_func = PrFunction fn → decorators T fn = [] →
       call_get_decorated_func T E
         (InstanceElement instance (Function base_func is_decorated) is_class_var) s =
         Ret (InstanceElement instance (Function (PrFunction fn) true) false) s).
Proof.
  split.
  - intros f s' Hrun. cbn [call_get_decorated_func]. rewrite bind_unfold, Hrun.
    cbn [mret M_ret]. by destruct f.
  - intros fn -> Hnone. cbn [call_get_decorated_func].
    rewrite bind_unfold, get_decorated_func_processed by (by left). done.
Qed.

End MoreProperties.

Section MoreWrapperCacheProperties.

Import WrapperCache.

Lemma wrapper_call_inj e1 e2 call :
  wrapper_call e1 = Some call → wrapper_call e2 = Some call → e1 = e2.
Proof.
  destruct e1 as [[]|], e2 as [[]|]; cbn; try done; intros [= <-] [= Heq]; by rewrite ?Heq.
Qed.

(** X17.  Two different parser nodes never share a wrapper: in a store
    whose cache is in order, [wrap] on a class, function or module node and
    then on another one returns two different objects. *)
Theorem wrap_distinct_nodes (element1 element2 : ref) (st : store) :
  store_ok st →
  is_Some (wrapper_call element1) →
  is_Some (wrapper_call element2) →
  element1 ≠ element2 →
  (wrap element1 st).1 ≠ (wrap element2 (wrap element1 st).2).1.
Proof.
  intros Hok [call1 Hcall1] [call2 Hcall2] Hne.
  pose proof (wrap_ok element1 st Hok) as Hok1.
  pose proof (wrap_ok element2 _ Hok1) as Hok2.
  revert Hok1 Hok2. rewrite !wrap_unfold, Hcall1, Hcall2.
  set (st1 := (construct call1 st).2). intros Hok1 Hok2.
  destruct (construct_cached call1 st) as (a1 & Hr1 & Hc1).
  destruct (construct_cached call2 st1) as (a2 & Hr2 & Hc2).
  rewrite Hr1, Hr2. intros [= <-].
  apply (construct_keeps call2) in Hc1. fold st1 in Hc1.
  apply Hok2 in Hc1. apply Hok2 in Hc2. rewrite Hc1 in Hc2. injection Hc2 as <-.
  apply Hne. by eapply wrapper_call_inj.
Qed.

End MoreWrapperCacheProperties.

(** ** The example programs *)

(** C7, where the code departs from it.  With [__call__] defined in [A]
    and [class B(A)], [class C(B)], the resolution order of [C] contains
    [A], whose subscopes hold [__call__]; an instance of [B] is callable,
    but reading [py__call__] on an instance of [C] raises [AttributeError]:
    [Class.get_subscope_by_name] looks into the class and its direct bases
    only. *)
Theorem Instance_py__call___misses_grandparent :
  returned (py__mro__ chain_tree std_compiled abc_evaluator 4 (Class 3) fresh_session)
    = Some [Class 3; Class 2; Class 1; object_obj]
  ∧ PrFunction 4 ∈ subscopes chain_tree 1
  ∧ name_code chain_tree (PrFunction 4) = "__call__"
  ∧ Instance_py__call__ chain_tree std_compiled abc_evaluator
      (Instance (Class 3) []) fresh_session =
      Raise AttributeError (after_py__bases__ chain_tree abc_evaluator 3 fresh_session)
  ∧ is_Some (returned (Instance_py__call__ chain_tree std_compiled abc_evaluator
                         (Instance (Class 2) []) fresh_session)).
Proof.
  assert (Hfresh : bases_table_ok chain_tree abc_evaluator fresh_session).
  { intros b bases H. unfold bases_cached in H. cbn in H. by rewrite lookup_empty in H. }
  split; [by vm_compute|]. split; [by left|]. split; [done|]. split.
  - by rewrite Instance_py__call___run.
  - rewrite Instance_py__call___run by done. by eexists.
Qed.

(** C2 as stated fails: the function has a listener; its first return is
    certain to execute and evaluates to [int], and the result is empty. *)
Lemma get_return_types_listeners_counterexample :
  let execution := FunctionExecution (Function (PrFunction 1) false) [] in
  break_check two_returns_evaluator execution 40 = REACHABLE
  ∧ eval_statement two_returns_evaluator 30 = [int_obj]
  ∧ get_return_types listened_tree two_returns_evaluator
      (eval_statement_pure two_returns_evaluator) execution fresh_session
    = Ret [] (set_memo ("get_return_types", execution) []
                (log_events [ListenerExecute 7 []] fresh_session))
  ∧ int_obj ∉ ([] : list obj).
Proof.
  split; [done|]. split; [done|]. split; [|apply not_elem_of_nil].
  unfold get_return_types, memoize_default. cbn [memoize_cache fresh_session].
  rewrite lookup_empty.
  rewrite (get_return_types_guarded_listeners listened_tree two_returns_evaluator _ _ _ 1)
    by (done || apply not_elem_of_nil).
  by rewrite <- set_memo_log_events, set_memo_twice.
Qed.

Lemma get_return_types_reachable_returns_witness :
  let func := Function (PrFunction 1) false in
  let execution := FunctionExecution func [] in
  raw_function func = Some 1
  ∧ ((func, []) ∉ execution_stack fresh_session)
  ∧ memoize_cache fresh_session !! ("get_return_types", execution) = None
  ∧ listeners two_returns_tree 1 = []
  ∧ get_return_types two_returns_tree two_returns_evaluator
      (eval_statement_pure two_returns_evaluator) execution fresh_session
    = Ret [int_obj] (set_memo ("get_return_types", execution) [int_obj] fresh_session)
  ∧ (listeners listened_tree 1 ≠ [] →
     ∀ eval_stmt,
       get_return_types listened_tree two_returns_evaluator eval_stmt execution fresh_session
       = Ret [] (set_memo ("get_return_types", execution) []
                   (log_events [ListenerExecute 7 []] fresh_session))).
Proof.
  split; [reflexivity|]. split; [apply not_elem_of_nil|]. split; [reflexivity|].
  split; [reflexivity|]. split.
  - apply (proj1 (proj1 (get_return_types_reachable_returns two_returns_tree
                           two_returns_evaluator (Function (PrFunction 1) false) [] 1
                           fresh_session eq_refl (not_elem_of_nil _) eq_refl) eq_refl)).
  - apply (proj1 (proj2 (get_return_types_reachable_returns listened_tree
                           two_returns_evaluator (Function (PrFunction 1) false) [] 1
                           fresh_session eq_refl (not_elem_of_nil _) eq_refl))).
Defined.

(** C4 as stated fails: the decorator statement has the candidates 11 and
    12, in this order, and the decorated function is the wrapper that the
    second one gives. *)
Lemma _decorated_func_first_candidate_counterexample :
  let old_func := Function (PrFunction 5) true in
  eval_statement decorated_evaluator 20 = [CompiledObject 11; CompiledObject 12]
  ∧ execute decorated_evaluator (CompiledObject 11) [old_func] = [CompiledObject 21]
  ∧ execute decorated_evaluator (CompiledObject 12) [old_func] = [CompiledObject 22]
  ∧ returned (_decorated_func decorated_tree decorated_evaluator
                (Function (PrFunction 5) false) fresh_session)
    = Some (Some (CompiledObject 22))
  ∧ CompiledObject 22 ≠ CompiledObject 21.
Proof. by repeat split. Qed.

Lemma _decorated_func_takes_last_candidate_witness :
  eval_statement decorated_evaluator 20 = [CompiledObject 11] ++ [CompiledObject 12]
  ∧ [CompiledObject 11] ≠ []
  ∧ apply_decorators decorated_evaluator [20] (PrFunction 5) fresh_session
    = Ret (Some (CompiledObject 22))
        (log_events [Dbg "decorator: %s %s"; Warning "multiple decorators found %s %s";
                     Dbg "decorator end %s"] fresh_session)
  ∧ _decorated_func decorated_tree decorated_evaluator (Function (PrFunction 5) false)
      fresh_session
    = Ret (Some (CompiledObject 22))
        (log_events [Dbg "decorator: %s %s"; Warning "multiple decorators found %s %s";
                     Dbg "decorator end %s"] fresh_session).
Proof.
  assert (Hmany : [CompiledObject 11] ≠ []) by discriminate.
  split; [reflexivity|]. split; [exact Hmany|].
  destruct (_decorated_func_takes_last_candidate decorated_tree decorated_evaluator 20 []
              (PrFunction 5) [CompiledObject 11] (CompiledObject 12) fresh_session
              eq_refl Hmany) as [Hloop Hfunc].
  split; [exact Hloop|]. exact (Hfunc 5 eq_refl).
Defined.

Lemma get_decorated_func_always_returns_witness :
  (false = true ∨ is_Some (raw_function (PrFunction 6)))
  ∧ ∃ s', get_decorated_func decorated_tree decorated_evaluator
            (Function (PrFunction 6) false) fresh_session
          = Ret (Function (PrFunction 6) true) s'.
Proof.
  split; [right; by eexists|].
  destruct (get_decorated_func_always_returns decorated_tree decorated_evaluator
              (PrFunction 6) false fresh_session) as (f & s' & Hrun & _ & Hf).
  { right. by eexists. }
  exists s'. rewrite Hrun. f_equal.
  apply (Hf 6 eq_refl eq_refl). reflexivity.
Defined.

(** C9 as stated fails: [__init__] carries a decorator, and the name
    [self.x] that it defines is among the self-attributes. *)
Lemma get_self_attributes_decorated_init_counterexample :
  decorators decorated_init_tree 2 = [21]
  ∧ returned (get_self_attributes decorated_init_tree std_compiled no_evaluator 1
                (Instance (Class 1) []) fresh_session)
    = Some [InstanceElement (Instance (Class 1) []) (PrName (Name ["x"] "x")) false].
Proof. split; [done|by vm_compute]. Qed.

Lemma decorated_init_well_formed : well_formed_class decorated_init_tree no_evaluator 1.
Proof.
  split; [|split].
  - by repeat constructor.
  - intros scope. destruct scope as [| n | | | | | | | | | | | | |]; try by constructor.
    destruct n as [|[|[|n]]]; by repeat constructor.
  - intros func var_args. constructor.
Defined.

Lemma get_self_attributes_own_methods_witness :
  let self := Instance (Class 1) [] in
  well_formed_class decorated_init_tree no_evaluator 1
  ∧ memoize_cache fresh_session !! ("get_self_attributes", self) = None
  ∧ ∀ names_ s',
      get_self_attributes decorated_init_tree std_compiled no_evaluator 1 self fresh_session
        = Ret names_ s' →
      ∃ inherited,
        names_ = [InstanceElement self (PrName (Name ["x"] "x")) false] ++ inherited.
Proof.
  split; [apply decorated_init_well_formed|]. split; [reflexivity|].
  apply (get_self_attributes_own_methods decorated_init_tree std_compiled no_evaluator
           1 [] 0 fresh_session decorated_init_well_formed eq_refl).
Defined.

Lemma wrap_identity_stable_witness :
  let element := WrapperCache.Raw (PrClass 1) in
  let later := [WrapperCache.Raw (PrFunction 2); WrapperCache.Raw (PrClass 3)] in
  WrapperCache.store_ok WrapperCache.empty_store
  ∧ (WrapperCache.wrap element
       (WrapperCache.wrap_all later
          (WrapperCache.wrap element WrapperCache.empty_store).2)).1
    = (WrapperCache.wrap element WrapperCache.empty_store).1.
Proof.
  assert (Hok : WrapperCache.store_ok WrapperCache.empty_store).
  { intros call a H. cbn in H. by rewrite lookup_empty in H. }
  split; [exact Hok|].
  apply (wrap_identity_stable (WrapperCache.Raw (PrClass 1))
           [WrapperCache.Raw (PrFunction 2); WrapperCache.Raw (PrClass 3)]
           WrapperCache.empty_store Hok).
Defined.

Lemma mutual_calls_closed : closed_program mutual_tree mutual_program mutual_calls.
Proof.
  split.
  - intros f a Hin. unfold mutual_calls in Hin.
    apply elem_of_cons in Hin as [[= -> ->]|Hin]; [by eexists|].
    apply elem_of_cons in Hin as [[= -> ->]|Hin]; [by eexists|].
    by apply elem_of_nil in Hin.
  - intros f a fn r stmt g b Hin Hfn Hr Hstmt Hprog. unfold mutual_calls in *.
    apply elem_of_cons in Hin as [[= -> ->]|Hin].
    + injection Hfn as <-. apply elem_of_cons in Hr as [->|Hr]; [|by apply elem_of_nil in Hr].
      injection Hstmt as <-. injection Hprog as <- <-. right. by left.
    + apply elem_of_cons in Hin as [[= -> ->]|Hin]; [|by apply elem_of_nil in Hin].
      injection Hfn as <-. apply elem_of_cons in Hr as [->|Hr]; [|by apply elem_of_nil in Hr].
      injection Hstmt as <-. injection Hprog as <- <-. by left.
Defined.


Lemma abc_hierarchy_closed : closed_hierarchy abc_tree abc_evaluator [1; 2; 3].
Proof.
  intros b c Hb Hc.
  apply elem_of_cons in Hb as [->|Hb]; [|apply elem_of_cons in Hb as [->|Hb];
    [|apply elem_of_cons in Hb as [->|Hb]; [|by apply elem_of_nil in Hb]]];
    vm_compute in Hc.
  - apply elem_of_cons in Hc as [[=]|Hc]. by apply elem_of_nil in Hc.
  - apply elem_of_cons in Hc as [[= ->]|Hc]; [by left|]. by apply elem_of_nil in Hc.
  - apply elem_of_cons in Hc as [[= ->]|Hc]; [right; by left|].
    apply elem_of_cons in Hc as [[= ->]|Hc]; [by left|]. by apply elem_of_nil in Hc.
Defined.

Lemma fresh_session_bases_ok T E : bases_table_ok T E fresh_session.
Proof. intros b bases H. unfold bases_cached in H. cbn in H. by rewrite lookup_empty in H. Defined.



(** C6 as stated fails while a call of [py__bases__] on the class is in
    progress: the table holds the placeholder, and a call that comes back
    into [py__bases__] of the class, as the body of the outer call does
    here, gets the empty list. *)
Lemma py__bases___in_progress_counterexample :
  let in_progress := set_memo ("py__bases__", Class 1) [] fresh_session in
  py__bases__ abc_tree abc_evaluator 1 in_progress = Ret [] in_progress
  ∧ returned (memoize_default "py__bases__" (Some [])
                (λ _, py__bases__ abc_tree abc_evaluator 1) (Class 1) fresh_session)
    = Some []
  ∧ returned (py__bases__ abc_tree abc_evaluator 1 fresh_session) = Some [object_obj].
Proof. repeat split; by vm_compute. Qed.

(** ** More example programs *)

Lemma Class_get_subscope_by_name_lookup_witness :
  bases_table_ok chain_tree abc_evaluator fresh_session
  ∧ ∃ s', Class_get_subscope_by_name chain_tree std_compiled abc_evaluator 1 "__call__"
            fresh_session = Ret (PrFunction 4) s'.
Proof.
  split; [apply fresh_session_bases_ok|].
  destruct (Class_get_subscope_by_name_lookup chain_tree std_compiled abc_evaluator
              1 "__call__" fresh_session (fresh_session_bases_ok _ _)) as (_ & _ & _ & Hfound).
  apply (Hfound [] (PrFunction 4) []); [reflexivity|reflexivity|constructor].
Defined.

Lemma Instance_get_index_types_never_raises_witness :
  bases_table_ok chain_tree abc_evaluator fresh_session
  ∧ Instance_get_index_types chain_tree std_compiled abc_evaluator no_surroundings
      (Instance (Class 1) []) [PrSimple 9] fresh_session
    = Ret [] (log_events [Warning "No __getitem__, cannot access the array."]
                (after_py__bases__ chain_tree abc_evaluator 1 fresh_session)).
Proof.
  split; [apply fresh_session_bases_ok|].
  exact (Instance_get_index_types_never_raises chain_tree std_compiled abc_evaluator
           no_surroundings 1 [] [PrSimple 9] fresh_session (fresh_session_bases_ok _ _)).
Defined.

Lemma returns_loop_stops_at_reachable_witness :
  let self := FunctionExecution (Function (PrFunction 1) false) [] in
  return_stmt (KeywordStatement (Some 30) 40) = Some 30
  ∧ break_check two_returns_evaluator self (return_parent (KeywordStatement (Some 30) 40))
    = REACHABLE
  ∧ returns_loop two_returns_evaluator (eval_statement_pure two_returns_evaluator) self
      ([] ++ KeywordStatement (Some 30) 40 :: [KeywordStatement (Some 31) 40]) []
      fresh_session
    = returns_loop two_returns_evaluator (eval_statement_pure two_returns_evaluator) self
        ([] ++ [KeywordStatement (Some 30) 40]) [] fresh_session.
Proof.
  split; [reflexivity|]. split; [reflexivity|].
  apply (returns_loop_stops_at_reachable two_returns_evaluator
           (eval_statement_pure two_returns_evaluator)
           (FunctionExecution (Function (PrFunction 1) false) []) []
           [KeywordStatement (Some 31) 40] (KeywordStatement (Some 30) 40) 30 []
           fresh_session eq_refl eq_refl).
Defined.

Lemma returns_loop_skips_unreachable_witness :
  let self := FunctionExecution (Function (PrFunction 1) false) [] in
  (return_stmt (KeywordStatement None 40) = None
   ∨ break_check no_evaluator self (return_parent (KeywordStatement None 40)) = UNREACHABLE)
  ∧ returns_loop no_evaluator (eval_statement_pure two_returns_evaluator) self
      ([KeywordStatement (Some 30) 40] ++ KeywordStatement None 40
         :: [KeywordStatement (Some 31) 40]) [] fresh_session
    = returns_loop no_evaluator (eval_statement_pure two_returns_evaluator) self
        ([KeywordStatement (Some 30) 40] ++ [KeywordStatement (Some 31) 40]) []
        fresh_session.
Proof.
  split; [by left|].
  apply (returns_loop_skips_unreachable no_evaluator
           (eval_statement_pure two_returns_evaluator)
           (FunctionExecution (Function (PrFunction 1) false) [])
           [KeywordStatement (Some 30) 40] [KeywordStatement (Some 31) 40]
           (KeywordStatement None 40) [] fresh_session (or_introl eq_refl)).
Defined.

Lemma get_return_types_keeps_docstring_witness :
  let func := Function (PrFunction 1) false in
  raw_function func = Some 1
  ∧ listeners two_returns_tree 1 = []
  ∧ ((func, []) ∉ execution_stack fresh_session)
  ∧ is_generator two_returns_tree 1 = false
  ∧ ∀ types s',
      Function_py__call__ two_returns_tree two_returns_evaluator
        (eval_statement_pure two_returns_evaluator) func [] fresh_session = Ret types s' →
      ∃ more, types = find_return_types two_returns_evaluator func ++ more.
Proof.
  split; [reflexivity|]. split; [reflexivity|]. split; [apply not_elem_of_nil|].
  split; [reflexivity|].
  apply (proj1 (get_return_types_keeps_docstring two_returns_tree two_returns_evaluator
                  (eval_statement_pure two_returns_evaluator) (Function (PrFunction 1) false)
                  [] 1 fresh_session eq_refl eq_refl (not_elem_of_nil _)) eq_refl).
Defined.

Lemma get_decorated_func_unresolved_decorator_witness :
  decorators decorated_tree 6 = [] ++ 25 :: []
  ∧ last (eval_statement decorated_evaluator 25) = None
  ∧ ∃ s', get_decorated_func decorated_tree decorated_evaluator
            (Function (PrFunction 6) false) fresh_session
          = Ret (Function (PrFunction 6) true) s'.
Proof.
  split; [reflexivity|]. split; [reflexivity|].
  apply (get_decorated_func_unresolved_decorator decorated_tree decorated_evaluator
           6 [] [] 25 fresh_session eq_refl I).
Defined.


Lemma abc_acyclic : acyclic abc_tree abc_evaluator abc_rank.
Proof.
  intros b c Hc. unfold abc_rank.
  destruct b as [|[|[|[|b]]]]; vm_compute in Hc.
  - apply elem_of_cons in Hc as [[=]|Hc]. by apply elem_of_nil in Hc.
  - apply elem_of_cons in Hc as [[=]|Hc]. by apply elem_of_nil in Hc.
  - apply elem_of_cons in Hc as [[= ->]|Hc]; [lia|]. by apply elem_of_nil in Hc.
  - apply elem_of_cons in Hc as [[= ->]|Hc]; [lia|].
    apply elem_of_cons in Hc as [[= ->]|Hc]; [lia|]. by apply elem_of_nil in Hc.
  - apply elem_of_cons in Hc as [[=]|Hc]. by apply elem_of_nil in Hc.
Defined.

Lemma fresh_session_exact T C E rank : exact_table T C E rank fresh_session.
Proof. intros b mro H. unfold mro_cached in H. cbn in H. by rewrite lookup_empty in H. Defined.


Lemma std_compiled_mro_compiled :
  ∀ k cls, cls ∈ compiled_mro std_compiled k → ∃ k', cls = CompiledObject k'.
Proof.
  intros k cls Hcls. cbn in Hcls. apply list_elem_of_singleton in Hcls. by exists k.
Defined.


Lemma fresh_session_attrs_ok : attrs_table_ok fresh_session.
Proof. intros inst v H. unfold attrs_cached in H. cbn in H. by rewrite lookup_empty in H. Defined.

Lemma get_self_attributes_shape_witness :
  let self := Instance (Class 1) [] in
  attrs_table_ok fresh_session
  ∧ ∃ s',
      get_self_attributes decorated_init_tree std_compiled no_evaluator 1 self fresh_session
        = Ret [InstanceElement self (PrName (Name ["x"] "x")) false] s'
      ∧ Forall self_attribute [InstanceElement self (PrName (Name ["x"] "x")) false].
Proof.
  split; [apply fresh_session_attrs_ok|].
  destruct (get_self_attributes decorated_init_tree std_compiled no_evaluator 1
              (Instance (Class 1) []) fresh_session) as [names_ s'| |] eqn:Hrun;
    [|by vm_compute in Hrun..].
  assert (Hval : names_ = [InstanceElement (Instance (Class 1) []) (PrName (Name ["x"] "x")) false]).
  { assert (H : returned (get_self_attributes decorated_init_tree std_compiled no_evaluator 1
                            (Instance (Class 1) []) fresh_session)
                = Some [InstanceElement (Instance (Class 1) []) (PrName (Name ["x"] "x")) false])
      by (by vm_compute).
    rewrite Hrun in H. by injection H. }
  subst names_. exists s'. split; [done|].
  apply (get_self_attributes_shape decorated_init_tree std_compiled no_evaluator 1
           (Instance (Class 1) []) fresh_session _ s' fresh_session_attrs_ok Hrun).
Defined.

Lemma cycle_instances_closed : closed_instances cycle_tree cycle_instances_evaluator cycle_instances.
Proof.
  assert (Hwf : ∀ b, well_formed_class cycle_tree cycle_instances_evaluator b).
  { intros b. split; [constructor|]. split; [intros scope; constructor|].
    intros func var_args. constructor. }
  intros inst Hinst. unfold cycle_instances in Hinst.
  apply elem_of_cons in Hinst as [->|Hinst]; [|apply elem_of_cons in Hinst as [->|Hinst];
    [|apply elem_of_cons in Hinst as [->|Hinst]; [|by apply elem_of_nil in Hinst]]].
  all: eexists _, _; split; [reflexivity|]; split; [apply Hwf|].
  all: intros cls above Hcls Habove; right; vm_compute in Hcls.
  all: apply elem_of_cons in Hcls as [->|Hcls]; [|by apply elem_of_nil in Hcls].
  all: cbn in Habove; apply list_elem_of_singleton in Habove as ->.
  all: unfold cycle_instances.
  - right. by left.
  - right. right. by left.
  - by left.
Defined.

Lemma get_self_attributes_returns_witness :
  closed_instances cycle_tree cycle_instances_evaluator cycle_instances
  ∧ bases_table_ok cycle_tree cycle_instances_evaluator fresh_session
  ∧ Instance (Class 1) [] ∈ cycle_instances
  ∧ length cycle_instances < 4
  ∧ ∃ names_ s',
      get_self_attributes cycle_tree std_compiled cycle_instances_evaluator 4
        (Instance (Class 1) []) fresh_session = Ret names_ s'
      ∧ stable fresh_session s'
      ∧ attrs_cached s' (Instance (Class 1) []) = Some names_.
Proof.
  assert (Hin : Instance (Class 1) [] ∈ cycle_instances) by (by left).
  assert (Hfuel : length cycle_instances < 4) by (cbn; lia).
  split; [apply cycle_instances_closed|]. split; [apply fresh_session_bases_ok|].
  split; [exact Hin|]. split; [exact Hfuel|].
  apply (get_self_attributes_returns cycle_tree std_compiled cycle_instances_evaluator
           cycle_instances (Instance (Class 1) []) 4 fresh_session
           cycle_instances_closed (fresh_session_bases_ok _ _) Hin Hfuel).
Defined.

Lemma abc_mro_run :
  ∃ s', py__mro__ abc_tree std_compiled abc_evaluator 4 (Class 3) fresh_session
        = Ret [Class 3; Class 2; Class 1; object_obj] s'.
Proof.
  destruct (py__mro__ abc_tree std_compiled abc_evaluator 4 (Class 3) fresh_session)
    as [mro s'| |] eqn:Hrun; [|by vm_compute in Hrun..].
  assert (H : returned (py__mro__ abc_tree std_compiled abc_evaluator 4 (Class 3) fresh_session)
              = Some [Class 3; Class 2; Class 1; object_obj]) by (by vm_compute).
  rewrite Hrun in H. injection H as ->. by exists s'.
Defined.

Lemma Class_scope_names_generator_every_name_witness :
  ∃ s',
    py__mro__ abc_tree std_compiled abc_evaluator 4 (Class 3) fresh_session
      = Ret [Class 3; Class 2; Class 1; object_obj] s'
    ∧ Forall (λ cls, is_class_or_compiled cls) [Class 3; Class 2; Class 1; object_obj]
    ∧ Class_scope_names_generator abc_tree std_compiled abc_evaluator no_surroundings 4
        (Class 3) true fresh_session
      = Ret (map (λ cls, (cls, names_of abc_tree no_surroundings cls))
               [Class 3; Class 2; Class 1; object_obj]
             ++ [(Class 3, type_names no_surroundings)]) s'.
Proof.
  destruct abc_mro_run as [s' Hrun].
  assert (Hall : Forall (λ cls, is_class_or_compiled cls)
                   [Class 3; Class 2; Class 1; object_obj]) by (by repeat constructor).
  exists s'. split; [exact Hrun|]. split; [exact Hall|].
  apply (Class_scope_names_generator_every_name abc_tree std_compiled abc_evaluator
           no_surroundings 4 3 true fresh_session s' _ Hrun Hall).
Defined.

Lemma Instance_scope_names_generator_scopes_witness :
  let self := Instance (Class 1) [] in
  let s1 := final_session (get_self_attributes decorated_init_tree std_compiled no_evaluator
                             2 self fresh_session) in
  let s2 := final_session (py__mro__ decorated_init_tree std_compiled no_evaluator 2
                             (Class 1) s1) in
  get_self_attributes decorated_init_tree std_compiled no_evaluator 2 self fresh_session
    = Ret [InstanceElement self (PrName (Name ["x"] "x")) false] s1
  ∧ py__mro__ decorated_init_tree std_compiled no_evaluator 2 (Class 1) s1
    = Ret [Class 1; object_obj] s2
  ∧ Forall (λ cls, is_class_or_compiled cls) [Class 1; object_obj]
  ∧ Instance_scope_names_generator decorated_init_tree std_compiled no_evaluator
      no_surroundings 2 self fresh_session
    = Ret [(self, [InstanceElement self (PrName (Name ["x"] "x")) false]);
           (self, []); (self, [])] s2.
Proof.
  cbn zeta.
  assert (Hattrs :
    get_self_attributes decorated_init_tree std_compiled no_evaluator 2
      (Instance (Class 1) []) fresh_session
    = Ret [InstanceElement (Instance (Class 1) []) (PrName (Name ["x"] "x")) false]
        (final_session (get_self_attributes decorated_init_tree std_compiled no_evaluator
                          2 (Instance (Class 1) []) fresh_session))) by (by vm_compute).
  assert (Hmro :
    py__mro__ decorated_init_tree std_compiled no_evaluator 2 (Class 1)
      (final_session (get_self_attributes decorated_init_tree std_compiled no_evaluator
                        2 (Instance (Class 1) []) fresh_session))
    = Ret [Class 1; object_obj]
        (final_session
           (py__mro__ decorated_init_tree std_compiled no_evaluator 2 (Class 1)
              (final_session (get_self_attributes decorated_init_tree std_compiled
                                no_evaluator 2 (Instance (Class 1) []) fresh_session)))))
    by (by vm_compute).
  assert (Hall : Forall (λ cls, is_class_or_compiled cls) [Class 1; object_obj])
    by (by repeat constructor).
  split; [exact Hattrs|]. split; [exact Hmro|]. split; [exact Hall|].
  exact (Instance_scope_names_generator_scopes decorated_init_tree std_compiled no_evaluator
           no_surroundings 2 1 [] fresh_session _ _ _ _ Hattrs Hmro Hall).
Defined.

Lemma wrap_distinct_nodes_witness :
  let element1 := WrapperCache.Raw (PrClass 1) in
  let element2 := WrapperCache.Raw (PrFunction 2) in
  WrapperCache.store_ok WrapperCache.empty_store
  ∧ is_Some (WrapperCache.wrapper_call element1)
  ∧ is_Some (WrapperCache.wrapper_call element2)
  ∧ element1 ≠ element2
  ∧ (WrapperCache.wrap element1 WrapperCache.empty_store).1
    ≠ (WrapperCache.wrap element2
         (WrapperCache.wrap element1 WrapperCache.empty_store).2).1.
Proof.
  assert (Hok : WrapperCache.store_ok WrapperCache.empty_store).
  { intros call a H. cbn in H. by rewrite lookup_empty in H. }
  assert (H1 : is_Some (WrapperCache.wrapper_call (WrapperCache.Raw (PrClass 1))))
    by (by eexists).
  assert (H2 : is_Some (WrapperCache.wrapper_call (WrapperCache.Raw (PrFunction 2))))
    by (by eexists).
  assert (Hne : WrapperCache.Raw (PrClass 1) ≠ WrapperCache.Raw (PrFunction 2))
    by discriminate.
  split; [exact Hok|]. split; [exact H1|]. split; [exact H2|]. split; [exact Hne|].
  exact (wrap_distinct_nodes _ _ _ Hok H1 H2 Hne).
Defined.
